(** * JamLicenseTracker: the editor module's source-URL logic

    A shallow embedding of
    [Source/JamLicenseTrackerEditor/Private/JamLicenseTrackerEditorModule.cpp]:
    the scan of the selection in [AddAssetSourceOptions], the commit handler
    [SetLicenseURLAction], the two license actions of
    [AddJamAssetLicenseOptions] and the tally and ranking of
    [CreateLicenseListSubmenu].

    The module is written against the engine's containers and strings.  What
    the module's code relies on is modelled in the first part of the file:
    [FString] comparisons ([operator==], [operator!=] and [operator<] ignore
    the case of ASCII letters), [TMap] and [TSet] keyed by [FString] (keys are
    matched with [operator==], entries are kept in insertion order), package
    metadata and the asset registry. *)

From Stdlib Require Import ZArith NArith Ascii String Lia Sorted Permutation.
From stdpp Require Import base option gmap strings list sorting.

Open Scope string_scope.
Open Scope Z_scope.

(** ** Engine strings: [FString] *)

(** A [TCHAR] code unit as an unsigned number (the strings of the model are
    made of 8-bit units). *)
Definition ToUnsigned (C : ascii) : N := N_of_ascii C.

(** [BothAscii]: both code units are below 0x80. *)
Definition BothAscii (U1 U2 : N) : bool := ((U1 <? 128) && (U2 <? 128))%N.

(** The engine's [LowerAscii] table: 'A'..'Z' are sent to 'a'..'z', every
    other code unit to itself. *)
Definition LowerAscii (U : N) : N :=
  if ((65 <=? U) && (U <=? 90))%N then (U + 32)%N else U.

(** [FCString::Stricmp], as the sign of its result: the loop compares the two
    strings code unit by code unit, skips identical units, compares two ASCII
    units through [LowerAscii] and any other pair as they are.  Strings hold
    no embedded terminator; the end of one string before the other is the
    terminator compared with a unit. *)
Fixpoint Stricmp (String1 String2 : string) : comparison :=
  match String1, String2 with
  | EmptyString, EmptyString => Eq
  | EmptyString, String _ _ => Lt
  | String _ _, EmptyString => Gt
  | String C1 Rest1, String C2 Rest2 =>
      let U1 := ToUnsigned C1 in
      let U2 := ToUnsigned C2 in
      if (U1 =? U2)%N then Stricmp Rest1 Rest2
      else if BothAscii U1 U2 then
        match (LowerAscii U1 ?= LowerAscii U2)%N with
        | Eq => Stricmp Rest1 Rest2
        | Diff => Diff
        end
      else (U1 ?= U2)%N
  end.

(** [FString::operator==]: [Equals(Rhs, ESearchCase::IgnoreCase)]. *)
Definition FString_eq (Lhs Rhs : string) : bool :=
  match Stricmp Lhs Rhs with Eq => true | _ => false end.

(** [FString::operator!=]. *)
Definition FString_ne (Lhs Rhs : string) : bool := negb (FString_eq Lhs Rhs).

(** [FString::operator<]: the result of [Stricmp] on the two strings is
    negative. *)
Definition FString_lt (Lhs Rhs : string) : bool :=
  match Stricmp Lhs Rhs with Lt => true | _ => false end.

(** [FString::IsEmpty]. *)
Definition IsEmpty (S : string) : bool :=
  match S with EmptyString => true | String _ _ => false end.

(** The code unit a character is compared by under [Stricmp]. *)
Definition CaseKey (C : ascii) : N := LowerAscii (ToUnsigned C).

(** The plain code-unit order on strings (what [Strcmp] gives), used to state
    what a case-sensitive comparison would be. *)
Fixpoint Strcmp (String1 String2 : string) : comparison :=
  match String1, String2 with
  | EmptyString, EmptyString => Eq
  | EmptyString, String _ _ => Lt
  | String _ _, EmptyString => Gt
  | String C1 Rest1, String C2 Rest2 =>
      match (ToUnsigned C1 ?= ToUnsigned C2)%N with
      | Eq => Strcmp Rest1 Rest2
      | Diff => Diff
      end
  end.

(** ** Engine integers: [int32] *)

Definition INT32_MAX : Z := 2147483647.

(** The value an [int32] holds after an arithmetic result [z]. *)
Definition wrap_int32 (z : Z) : Z := (z + 2 ^ 31) mod 2 ^ 32 - 2 ^ 31.

Definition int32_add (a b : Z) : Z := wrap_int32 (a + b).

(** ** Engine containers keyed by [FString] *)

(** [TMap<FString, int32>]: the pairs in insertion order; a key is found with
    [operator==] on [FString], so no two keys of a map are equal under it. *)
Abbreviation TMap_FString_int32 := (list (string * Z)).

(** [TMap::Find]. *)
Fixpoint TMap_Find (Map : TMap_FString_int32) (Key : string) : option Z :=
  match Map with
  | [] => None
  | (K, V) :: Rest => if FString_eq K Key then Some V else TMap_Find Rest Key
  end.

(** [Map.FindOrAdd(Key) += 1]: the value of the pair found under [Key] is
    incremented in place (the pair keeps the key it was added with); a new
    pair starts from the default value 0 and goes last. *)
Fixpoint TMap_FindOrAdd_Increment (Map : TMap_FString_int32) (Key : string)
  : TMap_FString_int32 :=
  match Map with
  | [] => [(Key, int32_add 0 1)]
  | (K, V) :: Rest =>
      if FString_eq K Key then (K, int32_add V 1) :: Rest
      else (K, V) :: TMap_FindOrAdd_Increment Rest Key
  end.

(** [TMap::GenerateKeyArray]. *)
Definition GenerateKeyArray (Map : TMap_FString_int32) : list string := Map.*1.

(** [Map[Key]] for a key of the map (the engine asserts that it is one). *)
Definition TMap_At (Map : TMap_FString_int32) (Key : string) : Z :=
  default 0 (TMap_Find Map Key).

(** [TSet<FString>]: the elements in insertion order. *)
Abbreviation TSet_FString := (list string).

(** [TSet::Add]: an element equal (under [operator==]) to the new one is
    replaced by it in place, otherwise the new element goes last. *)
Fixpoint TSet_Add (Set_ : TSet_FString) (Element : string) : TSet_FString :=
  match Set_ with
  | [] => [Element]
  | X :: Rest =>
      if FString_eq X Element then Element :: Rest else X :: TSet_Add Rest Element
  end.

(** [TSet::Contains]. *)
Definition TSet_Contains (Set_ : TSet_FString) (Element : string) : bool :=
  existsb (fun X => FString_eq X Element) Set_.

(** [TArray::Sort(Predicate)]: [Predicate A B] tells that [A] goes before
    [B].  The engine's algorithm is its own; the array it returns is an
    arrangement of the elements in which no element goes before an earlier
    one.  On elements that the predicate orders strictly and totally there is
    exactly one such arrangement (see [SortURLsByUsage_unique]), which the
    model computes by merging. *)
Definition NotAfter {A} (Predicate : A → A → bool) : relation A :=
  fun X Y => Predicate Y X = false.

#[global] Instance NotAfter_dec {A} (Predicate : A → A → bool) X Y :
  Decision (NotAfter Predicate X Y) := decide (Predicate Y X = false).

Definition Sort {A} (Predicate : A → A → bool) (Array : list A) : list A :=
  merge_sort (NotAfter Predicate) Array.

(** ** Engine objects, packages and metadata *)

Abbreviation UObject := positive.
Abbreviation UPackage := positive.

(** [UMetaData]: the values attached to (object, key). *)
Abbreviation UMetaData := (gmap (UObject * string) string).

(** Modelled from the spec: [UJamAssetLicense], the license asset declared in
    [JamAssetLicense.h], which is not among the sources.  The module reads
    its [AssetSourceURL] property, the source URL the license stands for. *)
Record UJamAssetLicense := {
  AssetSourceURL : string
}.

(** What the module asks of a live object: its outermost package (the code
    tests the pointer) and whether it is a [UJamAssetLicense]. *)
Record UObjectData := {
  Outermost : option UPackage;
  AsJamAssetLicense : option UJamAssetLicense
}.

(** [FAssetData]: an entry of the asset registry with its tags. *)
Record FAssetData := {
  ObjectPath : string;
  TagsAndValues : gmap string string
}.

(** The editor's state as far as the module reads or writes it. *)
Record World := {
  Objects : gmap UObject UObjectData;       (* live objects *)
  PackageMetaData : gmap UPackage UMetaData; (* packages that have metadata *)
  DirtyPackages : gset UPackage;             (* marked by [Package->Modify()] *)
  AssetRegistry : list FAssetData
}.

Definition MD_AssetSourceURL : string := "AssetSourceURL".

(** [Obj->GetOutermost()]. *)
Definition GetOutermost (W : World) (Obj : UObject) : option UPackage :=
  Objects W !! Obj ≫= Outermost.

(** [Package->HasMetaData() ? Package->GetMetaData() : nullptr]. *)
Definition HasMetaData_GetMetaData (W : World) (Package : UPackage)
  : option UMetaData :=
  PackageMetaData W !! Package.

(** [UMetaData::GetValue]: the empty string when nothing is stored. *)
Definition GetValue (Metadata : UMetaData) (Obj : UObject) (Key : string) : string :=
  default "" (Metadata !! (Obj, Key)).

Definition SetValue (Metadata : UMetaData) (Obj : UObject) (Key Value : string)
  : UMetaData :=
  <[(Obj, Key) := Value]> Metadata.

Definition RemoveValue (Metadata : UMetaData) (Obj : UObject) (Key : string)
  : UMetaData :=
  delete (Obj, Key) Metadata.

(** [TWeakObjectPtr::Get]: null once the object is gone. *)
Definition WeakPtr_Get (W : World) (WeakPtr : UObject) : option UObject :=
  if decide (is_Some (Objects W !! WeakPtr)) then Some WeakPtr else None.

(** [Cast<UJamAssetLicense>(WeakPtr.Get())]: null when the object is gone or
    is not a license. *)
Definition Cast_UJamAssetLicense (W : World) (WeakPtr : UObject)
  : option UJamAssetLicense :=
  Objects W !! WeakPtr ≫= AsJamAssetLicense.

(** [Package->Modify()]. *)
Definition Modify (W : World) (Package : UPackage) : World :=
  {| Objects := Objects W;
     PackageMetaData := PackageMetaData W;
     DirtyPackages := {[Package]} ∪ DirtyPackages W;
     AssetRegistry := AssetRegistry W |}.

(** [Package->GetMetaData()] on the write path: the engine creates the
    package's metadata object when there is none, so the pointer the code
    tests is never null. *)
Definition GetMetaData (W : World) (Package : UPackage) : UMetaData :=
  default ∅ (PackageMetaData W !! Package).

(** The package's metadata object after a write through the pointer. *)
Definition PutMetaData (W : World) (Package : UPackage) (Metadata : UMetaData)
  : World :=
  {| Objects := Objects W;
     PackageMetaData := <[Package := Metadata]> (PackageMetaData W);
     DirtyPackages := DirtyPackages W;
     AssetRegistry := AssetRegistry W |}.

(** ** [AddAssetSourceOptions]: the scan of the selection *)

Record LicenseScan := {
  bAnyHaveLicense : bool;
  bAnyMissingLicense : bool;
  SharedLicenseAssetID : string
}.

Definition LicenseScan_init : LicenseScan :=
  {| bAnyHaveLicense := false; bAnyMissingLicense := false;
     SharedLicenseAssetID := "" |}.

(** The body of the loop over [SelectedObjects]. *)
Definition LicenseScan_step (W : World) (St : LicenseScan) (Obj : UObject)
  : LicenseScan :=
  match GetOutermost W Obj with
  | Some Package =>
      match HasMetaData_GetMetaData W Package with
      | Some Metadata =>
          let LicenseAssetID := GetValue Metadata Obj MD_AssetSourceURL in
          if IsEmpty LicenseAssetID then
            {| bAnyHaveLicense := bAnyHaveLicense St;
               bAnyMissingLicense := true;
               SharedLicenseAssetID := "" |}
          else
            {| bAnyHaveLicense := true;
               bAnyMissingLicense := bAnyMissingLicense St;
               SharedLicenseAssetID :=
                 if negb (bAnyHaveLicense St) && negb (bAnyMissingLicense St)
                 then LicenseAssetID
                 else if FString_ne LicenseAssetID (SharedLicenseAssetID St)
                      then ""
                      else SharedLicenseAssetID St |}
      | None =>
          {| bAnyHaveLicense := bAnyHaveLicense St;
             bAnyMissingLicense := true;
             SharedLicenseAssetID := SharedLicenseAssetID St |}
      end
  | None => St
  end.

Definition ScanSelectedObjects (W : World) (SelectedObjects : list UObject)
  : LicenseScan :=
  fold_left (LicenseScan_step W) SelectedObjects LicenseScan_init.

(** The entry the section gets for viewing: the direct open action, the
    submenu that lists the sources, or none. *)
Inductive ViewEntry :=
  | OpenLicenseURL (URL : string)
  | ViewLicenses
  | NoViewEntry.

Definition AddViewEntry (St : LicenseScan) : ViewEntry :=
  if negb (IsEmpty (SharedLicenseAssetID St)) then
    OpenLicenseURL (SharedLicenseAssetID St)
  else if bAnyHaveLicense St then ViewLicenses
  else NoViewEntry.

(** The shared URL of the selection: the URL of the direct open action. *)
Definition SharedValue (W : World) (SelectedObjects : list UObject) : option string :=
  match AddViewEntry (ScanSelectedObjects W SelectedObjects) with
  | OpenLicenseURL URL => Some URL
  | _ => None
  end.

(** The text the edit box starts with. *)
Definition StartingValue (St : LicenseScan) : string :=
  if bAnyHaveLicense St && IsEmpty (SharedLicenseAssetID St)
  then "[multiple values]"
  else SharedLicenseAssetID St.

(** ** [SetLicenseURLAction]: the commit handler of the edit box *)

Inductive ETextCommit := Default | OnEnter | OnUserMovedFocus | OnCleared.

Definition ETextCommit_ne (A B : ETextCommit) : bool :=
  match A, B with
  | Default, Default | OnEnter, OnEnter
  | OnUserMovedFocus, OnUserMovedFocus | OnCleared, OnCleared => false
  | _, _ => true
  end.

(** The body of the loop over [WeakObjects]. *)
Definition SetAssetSource_step (EndingValue : string) (W : World) (WeakPtr : UObject)
  : World :=
  match WeakPtr_Get W WeakPtr with
  | Some Asset =>
      match GetOutermost W Asset with
      | Some Package =>
          let W1 := Modify W Package in
          let Metadata := GetMetaData W1 Package in
          if IsEmpty EndingValue then
            PutMetaData W1 Package (RemoveValue Metadata Asset MD_AssetSourceURL)
          else
            PutMetaData W1 Package
              (SetValue Metadata Asset MD_AssetSourceURL EndingValue)
      | None => W
      end
  | None => W
  end.

(** The transaction "Set Asset Source URL": the loop over [WeakObjects]. *)
Definition SetAssetSourceTransaction (WeakObjects : list UObject)
    (EndingValue : string) (W : World) : World :=
  fold_left (SetAssetSource_step EndingValue) WeakObjects W.

(** The lambda: [WeakObjects] and [StartingValue] are its captures, [Val] (as
    the string [Val.ToString()]) and [TextCommitType] its arguments. *)
Definition SetLicenseURLAction (WeakObjects : list UObject) (StartingValue_ : string)
    (Val : string) (TextCommitType : ETextCommit) (W : World) : World :=
  let EndingValue := Val in
  if ETextCommit_ne TextCommitType OnCleared && FString_ne EndingValue StartingValue_
  then SetAssetSourceTransaction WeakObjects EndingValue W
  else W.

(** ** [AddJamAssetLicenseOptions]: the two license actions *)

(** The loop that collects the URLs of the selected licenses. *)
Definition CollectAssetSourceURLs_step (W : World) (AssetSourceURLs : TSet_FString)
    (WeakPtr : UObject) : TSet_FString :=
  match Cast_UJamAssetLicense W WeakPtr with
  | Some LicenseAsset =>
      if negb (IsEmpty (AssetSourceURL LicenseAsset))
      then TSet_Add AssetSourceURLs (AssetSourceURL LicenseAsset)
      else AssetSourceURLs
  | None => AssetSourceURLs
  end.

Definition CollectAssetSourceURLs (W : World) (WeakObjects : list UObject)
  : TSet_FString :=
  fold_left (CollectAssetSourceURLs_step W) WeakObjects [].

(** [AssetRegistry.GetAssetsByTags({Tag}, Out)]. *)
Definition GetAssetsByTags (W : World) (Tag : string) : list FAssetData :=
  List.filter (fun AssetData => bool_decide (is_Some (TagsAndValues AssetData !! Tag)))
    (AssetRegistry W).

(** [AssetData.GetTagValue(Tag, Out)]: the value when the call returns true. *)
Definition GetTagValue (AssetData : FAssetData) (Tag : string) : option string :=
  TagsAndValues AssetData !! Tag.

(** The loop that fills [MatchingAssetList] from [PotentialAssetList]. *)
Definition MatchingAssets (AssetSourceURLs : TSet_FString)
    (PotentialAssetList : list FAssetData) : list FAssetData :=
  List.filter (fun AssetData =>
                 match GetTagValue AssetData MD_AssetSourceURL with
                 | Some TestURL => TSet_Contains AssetSourceURLs TestURL
                 | None => false
                 end) PotentialAssetList.

(** The assets the registry holds for a set of URLs. *)
Definition FindAssetsBySharedURL (W : World) (AssetSourceURLs : TSet_FString)
  : list FAssetData :=
  MatchingAssets AssetSourceURLs (GetAssetsByTags W MD_AssetSourceURL).

(** [MatchingAssetList] at the end of [SelectRelatedAssetsAction]. *)
Definition MatchingAssetList (W : World) (WeakObjects : list UObject)
  : list FAssetData :=
  FindAssetsBySharedURL W (CollectAssetSourceURLs W WeakObjects).

(** [SelectRelatedAssetsAction]: the list given to [SyncBrowserToAssets], when
    the call is made. *)
Definition SelectRelatedAssetsAction (W : World) (WeakObjects : list UObject)
  : option (list FAssetData) :=
  let Matching := MatchingAssetList W WeakObjects in
  if Z.of_nat (length Matching) >? 0 then Some Matching else None.

(** [ViewAssetSourceAction]: the URLs given to [LaunchURL], in order. *)
Definition ViewAssetSourceAction (W : World) (WeakObjects : list UObject)
  : list string :=
  CollectAssetSourceURLs W WeakObjects.

(** ** [CreateLicenseListSubmenu]: the tally and its ranking *)

(** The body of the loop that collects the license URLs. *)
Definition CollectLicenseURLs_step (W : World) (Acc : TMap_FString_int32 * Z)
    (Asset : UObject) : TMap_FString_int32 * Z :=
  let '(URLUsageMap, NumAssetsWithNoURL) := Acc in
  match GetOutermost W Asset with
  | Some Package =>
      match HasMetaData_GetMetaData W Package with
      | Some Metadata =>
          let LicenseAssetID := GetValue Metadata Asset MD_AssetSourceURL in
          if negb (IsEmpty LicenseAssetID) then
            (TMap_FindOrAdd_Increment URLUsageMap LicenseAssetID, NumAssetsWithNoURL)
          else (URLUsageMap, int32_add NumAssetsWithNoURL 1)
      | None => (URLUsageMap, int32_add NumAssetsWithNoURL 1)
      end
  | None => Acc
  end.

(** [Context] is the menu's context when [FindContext] finds one; without it
    the loop is not entered. *)
Definition CollectLicenseURLs (W : World) (Context : option (list UObject))
  : TMap_FString_int32 * Z :=
  match Context with
  | Some SelectedObjects =>
      fold_left (CollectLicenseURLs_step W) SelectedObjects ([], 0)
  | None => ([], 0)
  end.

(** The operation on a selection. *)
Definition Summarize (W : World) (SelectedObjects : list UObject)
  : TMap_FString_int32 * Z :=
  CollectLicenseURLs W (Some SelectedObjects).

(** The predicate given to [UniqueURLs.Sort]. *)
Definition SortByUsage (URLUsageMap : TMap_FString_int32) (A B : string) : bool :=
  let CountA := TMap_At URLUsageMap A in
  let CountB := TMap_At URLUsageMap B in
  if CountA =? CountB then FString_lt A B else CountA >? CountB.

Definition SortURLsByUsage (URLUsageMap : TMap_FString_int32) : list string :=
  Sort (SortByUsage URLUsageMap) (GenerateKeyArray URLUsageMap).

(** The entries of the submenu: each URL with the count shown in its tooltip
    ([URLUsageMap[URL]]). *)
Definition RankedList (URLUsageMap : TMap_FString_int32) : list (string * Z) :=
  (fun URL => (URL, TMap_At URLUsageMap URL)) <$> SortURLsByUsage URLUsageMap.

(** The placeholder entry "[no license]" is added when some asset had none. *)
Definition HasNoLicenseEntry (NumAssetsWithNoURL : Z) : bool :=
  NumAssetsWithNoURL >? 0.
(** ** Example editor states *)

(** An ordinary asset in its own package. *)
Definition PlainAsset (Package : UPackage) : UObjectData :=
  {| Outermost := Some Package; AsJamAssetLicense := None |}.

(** A [UJamAssetLicense] with the given [AssetSourceURL]. *)
Definition LicenseAsset (Package : UPackage) (URL : string) : UObjectData :=
  {| Outermost := Some Package;
     AsJamAssetLicense := Some {| AssetSourceURL := URL |} |}.

(** The metadata of a package that holds one source URL for one object. *)
Definition SourceURLMetaData (Obj : UObject) (URL : string) : UMetaData :=
  {[ (Obj, MD_AssetSourceURL) := URL ]}.

Definition MakeWorld (Objs : list (UObject * UObjectData))
    (Meta : list (UPackage * UMetaData)) (Registry : list FAssetData) : World :=
  {| Objects := list_to_map Objs;
     PackageMetaData := list_to_map Meta;
     DirtyPackages := ∅;
     AssetRegistry := Registry |}.

(** Assets 1 and 2, in packages 11 and 12, whose URLs differ in case only. *)
Definition World_case : World :=
  MakeWorld [(1%positive, PlainAsset 11); (2%positive, PlainAsset 12)]
            [(11%positive, SourceURLMetaData 1 "http://X");
             (12%positive, SourceURLMetaData 2 "http://x")] [].

(** Asset 1 has a URL, the package of asset 2 has no metadata. *)
Definition World_nometa : World :=
  MakeWorld [(1%positive, PlainAsset 11); (2%positive, PlainAsset 12)]
            [(11%positive, SourceURLMetaData 1 "http://x")] [].

(** Asset 1 has a URL, the package of asset 2 has metadata but no URL in it. *)
Definition World_unset : World :=
  MakeWorld [(1%positive, PlainAsset 11); (2%positive, PlainAsset 12)]
            [(11%positive, SourceURLMetaData 1 "http://x"); (12%positive, ∅)] [].

(** Assets 1, 2 and 3 with the URLs of the spec's example. *)
Definition World_xxy : World :=
  MakeWorld [(1%positive, PlainAsset 11); (2%positive, PlainAsset 12);
             (3%positive, PlainAsset 13)]
            [(11%positive, SourceURLMetaData 1 "http://x");
             (12%positive, SourceURLMetaData 2 "http://x");
             (13%positive, SourceURLMetaData 3 "http://y")] [].

(** Two licenses whose URLs differ in case only, a license without URL and
    an ordinary asset; the registry holds three assets tagged with a source
    URL and one without the tag. *)
Definition World_licenses : World :=
  MakeWorld [(1%positive, LicenseAsset 21 "http://X");
             (2%positive, LicenseAsset 22 "http://x");
             (3%positive, LicenseAsset 23 "");
             (4%positive, PlainAsset 24)]
            []
            [ {| ObjectPath := "/Game/Rock";
                 TagsAndValues := {[ MD_AssetSourceURL := "HTTP://X" ]} |};
              {| ObjectPath := "/Game/Tree";
                 TagsAndValues := {[ MD_AssetSourceURL := "http://x/" ]} |};
              {| ObjectPath := "/Game/Moss";
                 TagsAndValues := {[ MD_AssetSourceURL := "https://x" ]} |};
              {| ObjectPath := "/Game/Sand"; TagsAndValues := ∅ |} ].

(** Two assets whose packages have no metadata. *)
Definition World_unset_both : World :=
  MakeWorld [(1%positive, PlainAsset 11); (2%positive, PlainAsset 12)] [] [].
(** ** Notions the statements use *)

(** The URL stored for an asset, as the two queries read it: present when the
    asset's package has metadata and the value under [MD_AssetSourceURL] is
    not empty. *)
Definition StoredURL (W : World) (Obj : UObject) : option string :=
  Package ← GetOutermost W Obj;
  Metadata ← HasMetaData_GetMetaData W Package;
  let LicenseAssetID := GetValue Metadata Obj MD_AssetSourceURL in
  if IsEmpty LicenseAssetID then None else Some LicenseAssetID.

(** The asset's package is there and has a metadata object. *)
Definition HasMetaDataStore (W : World) (Obj : UObject) : Prop :=
  ∃ Package, GetOutermost W Obj = Some Package ∧
             is_Some (HasMetaData_GetMetaData W Package).

(** The shared URL under exact equality of the stored URLs: present exactly
    when the selection is not empty and every asset stores that same URL. *)
Definition SharedValue_exact : Prop :=
  ∀ (W : World) (SelectedObjects : list UObject) (URL : string),
    SharedValue W SelectedObjects = Some URL ↔
    SelectedObjects ≠ [] ∧
    ∀ Obj, Obj ∈ SelectedObjects → StoredURL W Obj = Some URL.

(** What the two queries find for an asset: no package, a package without
    metadata, or the value read from the package's metadata (the empty string
    when none is stored). *)
Inductive AssetView :=
  | NoPackage
  | NoMetaData
  | Stored (LicenseAssetID : string).

Definition ViewOf (W : World) (Obj : UObject) : AssetView :=
  match GetOutermost W Obj with
  | Some Package =>
      match HasMetaData_GetMetaData W Package with
      | Some Metadata => Stored (GetValue Metadata Obj MD_AssetSourceURL)
      | None => NoMetaData
      end
  | None => NoPackage
  end.

(** No two keys are equal under [operator==]: what [TMap] and [TSet] keep
    true of their keys. *)
Fixpoint KeysDistinct (Keys : list string) : Prop :=
  match Keys with
  | [] => True
  | K :: Rest => Forall (fun K' => FString_eq K K' = false) Rest ∧ KeysDistinct Rest
  end.

(** The sum of the counts of a tally. *)
Definition SumOfCounts (URLUsageMap : TMap_FString_int32) : Z :=
  foldr (fun Entry Sum => Entry.2 + Sum) 0 URLUsageMap.

(** The asset stores a URL equal to [Key] under [operator==]. *)
Definition MatchesURL (W : World) (Key : string) (Obj : UObject) : bool :=
  match StoredURL W Obj with
  | Some V => FString_eq V Key
  | None => false
  end.

(** How many assets of the selection store a URL equal to [Key] under
    [operator==]. *)
Definition UsageCount (W : World) (Key : string) (Objs : list UObject) : nat :=
  length (List.filter (MatchesURL W Key) Objs).

(** What [TMap::Find] gives for a key that [Count] assets of the selection
    match: nothing when there is none. *)
Definition FoundCount (Count : nat) : option Z :=
  match Count with O => None | S _ => Some (Z.of_nat Count) end.

(** How many assets of the selection store exactly the string [URL]. *)
Definition ExactCount (W : World) (URL : string) (Objs : list UObject) : nat :=
  length (List.filter (fun Obj => bool_decide (StoredURL W Obj = Some URL)) Objs).

(** The asset has a package and no URL: no metadata object, or an empty
    value in it. *)
Definition CountedWithNoURL (W : World) (Obj : UObject) : bool :=
  match ViewOf W Obj with
  | NoPackage => false
  | NoMetaData => true
  | Stored LicenseAssetID => IsEmpty LicenseAssetID
  end.

(** How many assets of the selection store no URL. *)
Definition NoURLCount (W : World) (Objs : list UObject) : nat :=
  length (List.filter (fun Obj => bool_decide (StoredURL W Obj = None)) Objs).

(** The tally under exact equality of the stored URLs: the entries are the
    URLs that occur, each with the number of assets that store exactly it. *)
Definition Summarize_exact : Prop :=
  ∀ (W : World) (SelectedObjects : list UObject),
    (∀ Obj, Obj ∈ SelectedObjects → is_Some (GetOutermost W Obj)) →
    Z.of_nat (length SelectedObjects) ≤ INT32_MAX →
    ∀ URL Count,
      (URL, Count) ∈ (Summarize W SelectedObjects).1 ↔
      Count = Z.of_nat (ExactCount W URL SelectedObjects) ∧ 1 ≤ Count.

(** The order of the ranked list: the higher count first, and for equal
    counts the URL that [operator<] puts first. *)
Definition RankedBefore (A B : string * Z) : Prop :=
  A.2 > B.2 ∨ (A.2 = B.2 ∧ Stricmp A.1 B.1 = Lt).

(** The same with ties decided by the code units of the URLs. *)
Definition RankedBefore_bytes (A B : string * Z) : Prop :=
  A.2 > B.2 ∨ (A.2 = B.2 ∧ Strcmp A.1 B.1 = Lt).

(** The ranked list under the code-unit order of the URLs. *)
Definition RankedList_bytes : Prop :=
  ∀ URLUsageMap : TMap_FString_int32,
    KeysDistinct (GenerateKeyArray URLUsageMap) →
    StronglySorted RankedBefore_bytes (RankedList URLUsageMap).

(** The annotation of an asset: the value its package's metadata holds for
    it under [MD_AssetSourceURL], if any. *)
Definition Annotation (W : World) (Obj : UObject) : option string :=
  Package ← GetOutermost W Obj;
  Metadata ← PackageMetaData W !! Package;
  Metadata !! (Obj, MD_AssetSourceURL).

(** The text the handler gets for a new value; a value that is absent comes
    as the empty text. *)
Definition CommittedText (NewValue : option string) : string := default "" NewValue.

(** The annotation a new value asks for: none for an absent or empty value. *)
Definition RequestedAnnotation (NewValue : option string) : option string :=
  match NewValue with
  | Some V => if IsEmpty V then None else Some V
  | None => None
  end.

(** One write of the loop, for an asset whose package is [Package]. *)
Definition WriteAssetSource (EndingValue : string) (Package : UPackage)
    (Asset : UObject) (W : World) : World :=
  let W1 := Modify W Package in
  let Metadata := GetMetaData W1 Package in
  if IsEmpty EndingValue then
    PutMetaData W1 Package (RemoveValue Metadata Asset MD_AssetSourceURL)
  else
    PutMetaData W1 Package (SetValue Metadata Asset MD_AssetSourceURL EndingValue).

(** SetAnnotation for every value, of the handler the edit box gets (its
    starting text is the one the scan of the same selection gives): after a
    commit that is not a cleared one, every asset of the selection has the
    annotation the value asks for. *)
Definition SetAnnotation_every_value : Prop :=
  ∀ (W : World) (SelectedObjects : list UObject) (NewValue : option string)
    (TextCommitType : ETextCommit),
    TextCommitType ≠ OnCleared →
    let Start := StartingValue (ScanSelectedObjects W SelectedObjects) in
    let W' := SetLicenseURLAction SelectedObjects Start (CommittedText NewValue)
                TextCommitType W in
    ∀ Asset, Asset ∈ SelectedObjects → is_Some (GetOutermost W Asset) →
             Annotation W' Asset = RequestedAnnotation NewValue.

(** The edit box of a selection whose URLs differ as strings starts with the
    sentinel, and a commit of the starting text, or a cleared commit, writes
    nothing. *)
Definition MultipleValues_exact : Prop :=
  ∀ (W : World) (SelectedObjects : list UObject),
    let Start := StartingValue (ScanSelectedObjects W SelectedObjects) in
    ((∃ A B U V, A ∈ SelectedObjects ∧ B ∈ SelectedObjects ∧
                 StoredURL W A = Some U ∧ StoredURL W B = Some V ∧ U ≠ V) →
     Start = "[multiple values]") ∧
    (∀ WeakObjects Val TextCommitType W',
       Val = Start ∨ TextCommitType = OnCleared →
       SetLicenseURLAction WeakObjects Start Val TextCommitType W' = W').

(** A string with its ASCII letters in lower case: two strings are equal
    under [operator==] exactly when they agree after this (see
    [FString_eq_ToLower]), so nothing else is unified. *)
Fixpoint ToLower (S : string) : string :=
  match S with
  | EmptyString => EmptyString
  | String C Rest => String (ascii_of_N (CaseKey C)) (ToLower Rest)
  end.

(** The assets found for a set of URLs under exact equality of strings. *)
Definition FindAssetsBySharedURL_exact : Prop :=
  ∀ (W : World) (AssetSourceURLs : TSet_FString) (AssetData : FAssetData),
    AssetData ∈ FindAssetsBySharedURL W AssetSourceURLs ↔
    AssetData ∈ AssetRegistry W ∧
    ∃ TestURL, GetTagValue AssetData MD_AssetSourceURL = Some TestURL ∧
               TestURL ∈ AssetSourceURLs.

(** The URL of a selected object that is a license. *)
Definition SelectedLicenseURL (W : World) (WeakPtr : UObject) : option string :=
  AssetSourceURL <$> Cast_UJamAssetLicense W WeakPtr.

(** How many times [URL], as this very string, is launched. *)
Definition LaunchCount (URL : string) (Launched : list string) : nat :=
  length (List.filter (String.eqb URL) Launched).

(** Every URL of a selected license that is not empty is launched once. *)
Definition ViewAssetSource_exact : Prop :=
  ∀ (W : World) (WeakObjects : list UObject) (WeakPtr : UObject) (URL : string),
    WeakPtr ∈ WeakObjects → SelectedLicenseURL W WeakPtr = Some URL →
    URL ≠ "" →
    LaunchCount URL (ViewAssetSourceAction W WeakObjects) = 1%nat.

(** What a later asset must be for the scan to keep the shared URL [URL]: an
    asset whose URL equals it under [operator==]; the scan also keeps it on
    an asset without package or whose package has no metadata. *)
Definition KeepsShared (W : World) (URL : string) (Obj : UObject) : Prop :=
  match ViewOf W Obj with
  | Stored V => IsEmpty V = false ∧ FString_eq V URL = true
  | NoMetaData | NoPackage => True
  end.

(** ** [CreateLicenseListSubmenu]: the entries of the submenu *)

(** An entry of the section "Sources": a URL with the number of assets shown
    in its tooltip (its action launches the URL), or the placeholder
    "[no license]" with the number of assets that have none. *)
Inductive LicenseListEntry :=
  | OpenSingleLicenseURL (URL : string) (Count : Z)
  | AssetsWithNoLicense (Count : Z).

(** The whole function: the tally, the sorted URLs, one entry per URL and the
    placeholder when [NumAssetsWithNoURL > 0]. *)
Definition CreateLicenseListSubmenu (W : World) (Context : option (list UObject))
  : list LicenseListEntry :=
  let '(URLUsageMap, NumAssetsWithNoURL) := CollectLicenseURLs W Context in
  let UniqueURLs := SortURLsByUsage URLUsageMap in
  (((fun URL => OpenSingleLicenseURL URL (TMap_At URLUsageMap URL)) <$> UniqueURLs)
   ++ if NumAssetsWithNoURL >? 0 then [AssetsWithNoLicense NumAssetsWithNoURL]
      else [])%list.

(** ** [AddAssetSourceOptions]: the entries of the section *)

(** The entries the function adds to "Asset Source (License)": the entry for
    viewing, if any, and the edit box "Source URL" with its starting text. *)
Inductive AssetSourceEntry :=
  | JamLicenseAction_OpenLicenseURL (URL : string)
  | ViewLicensesSubMenu
  | LicenseURLWidget (StartingValue_ : string).

Definition AddAssetSourceOptions (W : World) (SelectedObjects : list UObject)
  : list AssetSourceEntry :=
  let St := ScanSelectedObjects W SelectedObjects in
  (match AddViewEntry St with
   | OpenLicenseURL URL => [JamLicenseAction_OpenLicenseURL URL]
   | ViewLicenses => [ViewLicensesSubMenu]
   | NoViewEntry => []
   end ++ [LicenseURLWidget (StartingValue St)])%list.


(** ** The asset manager settings and their two rules *)

Inductive EPrimaryAssetCookRule :=
  | Unknown | NeverCook | DevelopmentCook | DevelopmentAlwaysCook | AlwaysCook.

(** [FPrimaryAssetTypeInfo], with the cook rule of its [Rules]. *)
Record FPrimaryAssetTypeInfo := {
  PrimaryAssetType : string;
  bHasBlueprintClasses : bool;
  bIsEditorOnly : bool;
  Directories : list string;
  SpecificAssets : list string;
  CookRule : EPrimaryAssetCookRule
}.

(** [UAssetManagerSettings]: the two properties the module changes.
    [MetaDataTagsForAssetRegistry] is a set of names; names, like strings,
    are compared without regard to case. *)
Record UAssetManagerSettings := {
  PrimaryAssetTypesToScan : list FPrimaryAssetTypeInfo;
  MetaDataTagsForAssetRegistry : TSet_FString
}.

(** What the calls of [SettingsHelpers] return for the settings' file. *)
Record SettingsHelpers := {
  IsCheckedOut : bool;
  CheckOutOrAddFile : bool;
  MakeWritable : bool
}.

(** The text of the notification, by its key. *)
Inductive NotificationOp :=
  | CheckedOutAssetManagerIni
  | MadeWritableAssetManagerIni
  | FailedToTouchAssetManagerIni
  | UpdatedAssetManagerIni.

(** What [ManipulateAssetManagerSettings] does besides changing the settings,
    in order. *)
Inductive EditorEvent :=
  | Call_CheckOutOrAddFile
  | Log_Error
  | Call_MakeWritable
  | Settings_Modify
  | Settings_PostEditChange
  | Settings_TryUpdateDefaultConfigFile
  | AssetManager_ReinitializeFromConfig
  | AddNotification (Op : NotificationOp).

(** The first part of [ManipulateAssetManagerSettings]: check out the file or
    make it writable.  Gives [bSuccess], [NotificationOpText] and what was
    called. *)
Definition CheckOutOrMakeWritable (Helpers : SettingsHelpers)
  : bool * NotificationOp * list EditorEvent :=
  if negb (IsCheckedOut Helpers) then
    if CheckOutOrAddFile Helpers then
      (true, CheckedOutAssetManagerIni, [Call_CheckOutOrAddFile])
    else if MakeWritable Helpers then
      (true, MadeWritableAssetManagerIni,
       [Call_CheckOutOrAddFile; Log_Error; Call_MakeWritable])
    else
      (false, FailedToTouchAssetManagerIni,
       [Call_CheckOutOrAddFile; Log_Error; Call_MakeWritable])
  else (true, UpdatedAssetManagerIni, []).

Definition ManipulateAssetManagerSettings (Helpers : SettingsHelpers)
    (InnerBody : UAssetManagerSettings → UAssetManagerSettings)
    (Settings : UAssetManagerSettings)
  : UAssetManagerSettings * list EditorEvent :=
  let '(bSuccess, NotificationOpText, Calls) := CheckOutOrMakeWritable Helpers in
  if bSuccess then
    (InnerBody Settings,
     (Calls ++ [Settings_Modify; Settings_PostEditChange;
                Settings_TryUpdateDefaultConfigFile;
                AssetManager_ReinitializeFromConfig;
                AddNotification NotificationOpText])%list)
  else (Settings, (Calls ++ [AddNotification NotificationOpText])%list).

(** [UJamAssetLicense::StaticClass()->GetFName()]. *)
Definition JamAssetLicense_FName : string := "JamAssetLicense".

(** The type info [AddJamAssetLicenseRule] builds. *)
Definition NewTypeInfo : FPrimaryAssetTypeInfo :=
  {| PrimaryAssetType := JamAssetLicense_FName;
     bHasBlueprintClasses := false;
     bIsEditorOnly := true;
     Directories := ["/Game/"];
     SpecificAssets := [];
     CookRule := NeverCook |}.

Definition AddJamAssetLicenseRule (Helpers : SettingsHelpers)
    (Settings : UAssetManagerSettings) : UAssetManagerSettings * list EditorEvent :=
  ManipulateAssetManagerSettings Helpers
    (fun Settings =>
       {| PrimaryAssetTypesToScan :=
            (PrimaryAssetTypesToScan Settings ++ [NewTypeInfo])%list;
          MetaDataTagsForAssetRegistry := MetaDataTagsForAssetRegistry Settings |})
    Settings.

Definition AddAssetLicenseToAssetRegistryRule (Helpers : SettingsHelpers)
    (Settings : UAssetManagerSettings) : UAssetManagerSettings * list EditorEvent :=
  ManipulateAssetManagerSettings Helpers
    (fun Settings =>
       {| PrimaryAssetTypesToScan := PrimaryAssetTypesToScan Settings;
          MetaDataTagsForAssetRegistry :=
            TSet_Add (MetaDataTagsForAssetRegistry Settings) MD_AssetSourceURL |})
    Settings.

(** The errors [OnAssetManagerCreated] puts in the message log, each with the
    action it offers. *)
Inductive LoadError :=
  | MissingRuleForJamAssetLicense
  | MetaDataNotSavedInAssetRegistry.

(** [Rules_IsDefault] is what the asset manager answers for the rules of the
    license type ([GetPrimaryAssetRules(DummyAssetId).IsDefault()]). *)
Definition OnAssetManagerCreated (Rules_IsDefault : bool)
    (Settings : UAssetManagerSettings) : list LoadError :=
  ((if Rules_IsDefault then [MissingRuleForJamAssetLicense] else [])
  ++ if negb (TSet_Contains (MetaDataTagsForAssetRegistry Settings) MD_AssetSourceURL)
     then [MetaDataNotSavedInAssetRegistry] else [])%list.

(** Example settings, without the tag. *)
Definition Settings_fresh : UAssetManagerSettings :=
  {| PrimaryAssetTypesToScan := []; MetaDataTagsForAssetRegistry := ["PrimaryAssetName"] |}.

(** The file is not checked out, the check-out fails, the file can be made
    writable. *)
Definition Helpers_writable : SettingsHelpers :=
  {| IsCheckedOut := false; CheckOutOrAddFile := false; MakeWritable := true |}.

(** The selected object is a license whose URL is not empty. *)
Definition HasLicenseURL (W : World) (WeakPtr : UObject) : bool :=
  match SelectedLicenseURL W WeakPtr with
  | Some URL => negb (IsEmpty URL)
  | None => false
  end.

(** The settings' file ends up checked out or writable. *)
Definition FileIsWritable (Helpers : SettingsHelpers) : bool :=
  IsCheckedOut Helpers || CheckOutOrAddFile Helpers || MakeWritable Helpers.

(** The number an entry of the submenu shows. *)
Definition EntryCount (Entry : LicenseListEntry) : Z :=
  match Entry with
  | OpenSingleLicenseURL _ Count => Count
  | AssetsWithNoLicense Count => Count
  end.

(** The numbers of the submenu's entries, added up. *)
Definition TotalCount (Entries : list LicenseListEntry) : Z :=
  foldr (fun Entry Sum => EntryCount Entry + Sum) 0 Entries.

(** The asset has a package. *)
Definition HasPackage (W : World) (Obj : UObject) : bool :=
  bool_decide (is_Some (GetOutermost W Obj)).
(** ** Proof steps *)

(** Membership in a list given by its elements: one goal per element. *)
Ltac by_elements H :=
  repeat (apply elem_of_cons in H as [->|H]);
  [..|by apply elem_of_nil in H].

(** A selected object of an example state has its package. *)
Ltac packaged := by vm_compute; eauto.

(** Membership in a list of events or errors given by its elements. *)
Ltac in_events :=
  unfold not; rewrite ?elem_of_cons, ?elem_of_nil;
  intuition (discriminate || congruence || auto 12).

(** ** Properties of the engine strings *)

Lemma LowerAscii_ascii U : (U < 128 -> LowerAscii U < 128)%N.
Proof.
  unfold LowerAscii. intros HU.
  destruct ((65 <=? U) && (U <=? 90))%N eqn:E; [|lia].
  apply andb_true_iff in E as [_ E]. apply N.leb_le in E. lia.
Qed.

Lemma LowerAscii_high U : (128 <= U -> LowerAscii U = U)%N.
Proof.
  unfold LowerAscii. intros HU.
  destruct ((65 <=? U) && (U <=? 90))%N eqn:E; [|done].
  apply andb_true_iff in E as [_ E]. apply N.leb_le in E. lia.
Qed.

Lemma Stricmp_cons C1 Rest1 C2 Rest2 :
  Stricmp (String C1 Rest1) (String C2 Rest2) =
  match (CaseKey C1 ?= CaseKey C2)%N with
  | Eq => Stricmp Rest1 Rest2
  | Diff => Diff
  end.
Proof.
  cbn [Stricmp]. unfold CaseKey.
  set (U1 := ToUnsigned C1). set (U2 := ToUnsigned C2).
  destruct (N.eqb_spec U1 U2) as [->|Hne].
  { by rewrite N.compare_refl. }
  unfold BothAscii.
  destruct (N.ltb_spec U1 128) as [H1|H1], (N.ltb_spec U2 128) as [H2|H2];
    cbn [andb]; [done| | |].
  - rewrite (LowerAscii_high U2) by done.
    pose proof (LowerAscii_ascii U1 H1).
    rewrite (proj2 (N.compare_lt_iff U1 U2)) by lia.
    by rewrite (proj2 (N.compare_lt_iff (LowerAscii U1) U2)) by lia.
  - rewrite (LowerAscii_high U1) by done.
    pose proof (LowerAscii_ascii U2 H2).
    rewrite (proj2 (N.compare_gt_iff U1 U2)) by lia.
    by rewrite (proj2 (N.compare_gt_iff U1 (LowerAscii U2))) by lia.
  - rewrite !LowerAscii_high by done.
    destruct (N.compare_spec U1 U2); [done|done|done].
Qed.

Lemma Stricmp_refl S : Stricmp S S = Eq.
Proof. induction S as [|C S IH]; [done|]. by rewrite Stricmp_cons, N.compare_refl. Qed.

Lemma Stricmp_antisym S1 S2 : Stricmp S2 S1 = CompOpp (Stricmp S1 S2).
Proof.
  revert S2. induction S1 as [|C1 S1 IH]; intros [|C2 S2]; try done.
  rewrite !Stricmp_cons, (N.compare_antisym (CaseKey C1) (CaseKey C2)).
  destruct (CaseKey C1 ?= CaseKey C2)%N; cbn; auto.
Qed.

Lemma Stricmp_eq_compat S1 S2 S3 :
  Stricmp S1 S2 = Eq → Stricmp S1 S3 = Stricmp S2 S3.
Proof.
  revert S2 S3. induction S1 as [|C1 S1 IH]; intros [|C2 S2] S3; try done.
  rewrite Stricmp_cons.
  destruct (N.compare_spec (CaseKey C1) (CaseKey C2)) as [E| |]; try done.
  intros H. destruct S3 as [|C3 S3]; [done|].
  rewrite !Stricmp_cons, E. destruct (CaseKey C2 ?= CaseKey C3)%N; auto.
Qed.

Lemma Stricmp_lt_trans S1 S2 S3 :
  Stricmp S1 S2 = Lt → Stricmp S2 S3 = Lt → Stricmp S1 S3 = Lt.
Proof.
  revert S2 S3. induction S1 as [|C1 S1 IH]; intros [|C2 S2] [|C3 S3]; try done.
  rewrite !Stricmp_cons.
  destruct (N.compare_spec (CaseKey C1) (CaseKey C2)) as [E12|L12|G12]; try done;
  destruct (N.compare_spec (CaseKey C2) (CaseKey C3)) as [E23|L23|G23]; try done;
  intros H12 H23.
  - rewrite E12, E23, N.compare_refl. eauto.
  - by rewrite (proj2 (N.compare_lt_iff _ _)) by lia.
  - by rewrite (proj2 (N.compare_lt_iff _ _)) by lia.
  - by rewrite (proj2 (N.compare_lt_iff _ _)) by lia.
Qed.

Lemma FString_eq_refl S : FString_eq S S = true.
Proof. unfold FString_eq. by rewrite Stricmp_refl. Qed.

Lemma FString_eq_sym S1 S2 : FString_eq S1 S2 = FString_eq S2 S1.
Proof.
  unfold FString_eq. rewrite (Stricmp_antisym S1 S2).
  by destruct (Stricmp S1 S2).
Qed.

Lemma FString_eq_Stricmp S1 S2 : FString_eq S1 S2 = true ↔ Stricmp S1 S2 = Eq.
Proof. unfold FString_eq. destruct (Stricmp S1 S2); split; congruence. Qed.

Lemma FString_eq_compat S1 S2 S3 :
  FString_eq S1 S2 = true → FString_eq S1 S3 = FString_eq S2 S3.
Proof.
  intros H%FString_eq_Stricmp. unfold FString_eq.
  by rewrite (Stricmp_eq_compat S1 S2 S3 H).
Qed.

Lemma FString_eq_trans S1 S2 S3 :
  FString_eq S1 S2 = true → FString_eq S2 S3 = true → FString_eq S1 S3 = true.
Proof. intros H12 H23. by rewrite (FString_eq_compat _ _ _ H12). Qed.

Lemma FString_eq_empty S : FString_eq S "" = IsEmpty S.
Proof. by destruct S. Qed.

Lemma IsEmpty_false S : IsEmpty S = false ↔ S ≠ "".
Proof. destruct S; cbn; split; congruence. Qed.


Section Selection.
Context (W : World).

(** *** The three cases of an asset *)

Lemma StoredURL_view Obj :
  StoredURL W Obj =
  match ViewOf W Obj with
  | Stored LicenseAssetID =>
      if IsEmpty LicenseAssetID then None else Some LicenseAssetID
  | _ => None
  end.
Proof.
  unfold StoredURL, ViewOf.
  destruct (GetOutermost W Obj) as [Package|]; [|done]. cbn [mbind option_bind].
  by destruct (HasMetaData_GetMetaData W Package).
Qed.

Lemma HasMetaDataStore_view Obj :
  HasMetaDataStore W Obj ↔ ∃ LicenseAssetID, ViewOf W Obj = Stored LicenseAssetID.
Proof.
  unfold HasMetaDataStore, ViewOf. split.
  - intros (Package & -> & [Metadata ->]). eauto.
  - destruct (GetOutermost W Obj) as [Package|]; [|by intros [? ?]].
    destruct (HasMetaData_GetMetaData W Package) eqn:E; [|by intros [? ?]].
    intros _. exists Package. by rewrite E.
Qed.

Lemma HasPackage_view Obj :
  is_Some (GetOutermost W Obj) ↔ ViewOf W Obj ≠ NoPackage.
Proof.
  unfold ViewOf. destruct (GetOutermost W Obj) as [Package|].
  - split; [|eauto]. intros _. by destruct (HasMetaData_GetMetaData W Package).
  - split; [by intros [? ?]|done].
Qed.

Lemma LicenseScan_step_view St Obj :
  LicenseScan_step W St Obj =
  match ViewOf W Obj with
  | Stored LicenseAssetID =>
      if IsEmpty LicenseAssetID then
        {| bAnyHaveLicense := bAnyHaveLicense St;
           bAnyMissingLicense := true;
           SharedLicenseAssetID := "" |}
      else
        {| bAnyHaveLicense := true;
           bAnyMissingLicense := bAnyMissingLicense St;
           SharedLicenseAssetID :=
             if negb (bAnyHaveLicense St) && negb (bAnyMissingLicense St)
             then LicenseAssetID
             else if FString_ne LicenseAssetID (SharedLicenseAssetID St)
                  then ""
                  else SharedLicenseAssetID St |}
  | NoMetaData =>
      {| bAnyHaveLicense := bAnyHaveLicense St;
         bAnyMissingLicense := true;
         SharedLicenseAssetID := SharedLicenseAssetID St |}
  | NoPackage => St
  end.
Proof.
  unfold LicenseScan_step, ViewOf.
  destruct (GetOutermost W Obj) as [Package|]; [|done].
  by destruct (HasMetaData_GetMetaData W Package).
Qed.

Lemma StoredURL_nonempty Obj URL : StoredURL W Obj = Some URL → IsEmpty URL = false.
Proof.
  rewrite StoredURL_view. destruct (ViewOf W Obj) as [| |V]; try done.
  destruct (IsEmpty V) eqn:E; [done|]. by intros [= <-].
Qed.

(** *** The scan of the selection *)

Lemma ScanSelectedObjects_snoc Objs Obj :
  ScanSelectedObjects W (Objs ++ [Obj]) =
  LicenseScan_step W (ScanSelectedObjects W Objs) Obj.
Proof. unfold ScanSelectedObjects. by rewrite fold_left_app. Qed.

(** What the scan keeps true whatever the assets are: a shared URL that is
    not empty equals, under [operator==], every URL seen so far, and as soon
    as a URL has been seen [bAnyHaveLicense] is set. *)
Lemma ScanSelectedObjects_invariant Objs :
  let St := ScanSelectedObjects W Objs in
  (IsEmpty (SharedLicenseAssetID St) = false →
     ∀ Obj URL, Obj ∈ Objs → StoredURL W Obj = Some URL →
       FString_eq URL (SharedLicenseAssetID St) = true) ∧
  (∀ Obj URL, Obj ∈ Objs → StoredURL W Obj = Some URL → bAnyHaveLicense St = true).
Proof.
  induction Objs as [|Obj Objs IH] using rev_ind; cbn zeta.
  { split; [done|]. intros ?? H. by apply elem_of_nil in H. }
  rewrite ScanSelectedObjects_snoc.
  cbn zeta in IH. destruct IH as [IH1 IH2].
  set (St := ScanSelectedObjects W Objs) in *.
  rewrite LicenseScan_step_view.
  assert (∀ (Obj' : UObject) URL', Obj' ∈ (Objs ++ [Obj])%list → StoredURL W Obj' = Some URL' →
            (Obj' ∈ Objs ∧ bAnyHaveLicense St = true) ∨
            (Obj' = Obj ∧ ViewOf W Obj = Stored URL' ∧ IsEmpty URL' = false)) as Hsplit.
  { intros Obj' URL' [Hin|Hin%list_elem_of_singleton]%elem_of_app HU'.
    - left. eauto.
    - right. subst Obj'. split; [done|].
      pose proof (StoredURL_nonempty _ _ HU') as Hne.
      rewrite StoredURL_view in HU'.
      destruct (ViewOf W Obj) as [| |V]; try done.
      destruct (IsEmpty V); [done|]. by injection HU' as ->. }
  destruct (ViewOf W Obj) as [| |V] eqn:EV.
  - split.
    + intros HS Obj' URL' Hin HU'.
      destruct (Hsplit _ _ Hin HU') as [[Hin' _]|(_ & ? & _)]; [eauto|done].
    + intros Obj' URL' Hin HU'.
      destruct (Hsplit _ _ Hin HU') as [[_ ?]|(_ & ? & _)]; done.
  - cbn. split.
    + intros HS Obj' URL' Hin HU'.
      destruct (Hsplit _ _ Hin HU') as [[Hin' _]|(_ & ? & _)]; [eauto|done].
    + intros Obj' URL' Hin HU'.
      destruct (Hsplit _ _ Hin HU') as [[_ ?]|(_ & ? & _)]; done.
  - destruct (IsEmpty V) eqn:EE; cbn.
    + split; [done|]. intros Obj' URL' Hin HU'.
      destruct (Hsplit _ _ Hin HU') as [[_ ?]|(_ & [= <-] & ?)]; congruence.
    + split; [|done]. intros HS Obj' URL' Hin HU'.
      destruct (Hsplit _ _ Hin HU') as [[Hin' Hhave]|(_ & [= <-] & _)].
      * rewrite Hhave in *. cbn in *.
        destruct (FString_ne V (SharedLicenseAssetID St)) eqn:Ene; [done|]. eauto.
      * destruct (negb (bAnyHaveLicense St) && negb (bAnyMissingLicense St)).
        { apply FString_eq_refl. }
        unfold FString_ne in *.
        by destruct (FString_eq V (SharedLicenseAssetID St)) eqn:Ene.
Qed.

Lemma SharedValue_scan Objs URL :
  SharedValue W Objs = Some URL ↔
  SharedLicenseAssetID (ScanSelectedObjects W Objs) = URL ∧ IsEmpty URL = false.
Proof.
  unfold SharedValue, AddViewEntry.
  destruct (IsEmpty (SharedLicenseAssetID (ScanSelectedObjects W Objs))) eqn:E; cbn.
  - split.
    + by destruct (bAnyHaveLicense (ScanSelectedObjects W Objs)).
    + intros [<- ?]. congruence.
  - split; [by intros [= <-]|]. by intros [-> _].
Qed.

(** Once a flag is set and the shared URL is empty, it stays empty. *)
Lemma scan_rest_empty Objs St :
  bAnyHaveLicense St || bAnyMissingLicense St = true →
  SharedLicenseAssetID St = "" →
  SharedLicenseAssetID (fold_left (LicenseScan_step W) Objs St) = "".
Proof.
  revert St. induction Objs as [|Obj Objs IH]; intros St Hflag HS; [done|].
  cbn [fold_left]. apply IH; rewrite LicenseScan_step_view;
    destruct (ViewOf W Obj) as [| |V]; try done.
  - cbn. apply orb_true_r.
  - destruct (IsEmpty V); cbn; [apply orb_true_r|done].
  - destruct (IsEmpty V); cbn; [done|].
    rewrite (proj1 (negb_true_iff _)); [|by rewrite negb_andb, !negb_involutive].
    rewrite HS. by destruct (FString_ne V "").
Qed.

(** After the first asset, a shared URL survives exactly as long as every
    further asset keeps it. *)
Lemma scan_rest_shared Objs St :
  bAnyHaveLicense St || bAnyMissingLicense St = true →
  IsEmpty (SharedLicenseAssetID St) = false →
  let St' := fold_left (LicenseScan_step W) Objs St in
  (SharedLicenseAssetID St' = SharedLicenseAssetID St ∨ SharedLicenseAssetID St' = "") ∧
  (SharedLicenseAssetID St' = SharedLicenseAssetID St ↔
   ∀ Obj, Obj ∈ Objs → KeepsShared W (SharedLicenseAssetID St) Obj).
Proof.
  revert St. induction Objs as [|Obj Objs IH]; intros St Hflag HS; cbn zeta.
  { split; [by left|]. split; [|done]. intros _ ? H. by apply elem_of_nil in H. }
  cbn [fold_left].
  assert (∀ St1,
            bAnyHaveLicense St1 || bAnyMissingLicense St1 = true →
            SharedLicenseAssetID St1 = SharedLicenseAssetID St →
            KeepsShared W (SharedLicenseAssetID St) Obj →
            let St' := fold_left (LicenseScan_step W) Objs St1 in
            (SharedLicenseAssetID St' = SharedLicenseAssetID St
             ∨ SharedLicenseAssetID St' = "") ∧
            (SharedLicenseAssetID St' = SharedLicenseAssetID St ↔
             ∀ Obj', Obj' ∈ Obj :: Objs → KeepsShared W (SharedLicenseAssetID St) Obj'))
    as Hkeep.
  { intros St1 Hflag1 E1 HK. cbn zeta.
    destruct (IH St1 Hflag1 ltac:(by rewrite E1)) as [IHa IHb].
    rewrite E1 in IHa, IHb. split; [done|]. rewrite IHb. split.
    - intros H Obj' [->|Hin]%elem_of_cons; [done|by apply H].
    - intros H Obj' Hin. apply H. by right. }
  assert (∀ St1,
            bAnyHaveLicense St1 || bAnyMissingLicense St1 = true →
            SharedLicenseAssetID St1 = "" →
            ¬ KeepsShared W (SharedLicenseAssetID St) Obj →
            let St' := fold_left (LicenseScan_step W) Objs St1 in
            (SharedLicenseAssetID St' = SharedLicenseAssetID St
             ∨ SharedLicenseAssetID St' = "") ∧
            (SharedLicenseAssetID St' = SharedLicenseAssetID St ↔
             ∀ Obj', Obj' ∈ Obj :: Objs → KeepsShared W (SharedLicenseAssetID St) Obj'))
    as Hdrop.
  { intros St1 Hflag1 E1 HK. cbn zeta.
    rewrite (scan_rest_empty _ _ Hflag1 E1).
    split; [by right|]. split.
    - intros E. rewrite <- E in HS. done.
    - intros H. destruct HK. apply H. by left. }
  rewrite LicenseScan_step_view. unfold KeepsShared in Hkeep, Hdrop.
  destruct (ViewOf W Obj) as [| |V] eqn:EV.
  - by apply Hkeep.
  - apply Hkeep; [apply orb_true_r|done|done].
  - destruct (IsEmpty V) eqn:EE.
    + apply Hdrop; [apply orb_true_r|done|]. by intros [? _].
    + assert (negb (bAnyHaveLicense St) && negb (bAnyMissingLicense St) = false)
        as -> by (by destruct (bAnyHaveLicense St), (bAnyMissingLicense St)).
      unfold FString_ne.
      destruct (FString_eq V (SharedLicenseAssetID St)) eqn:Eeq; cbn [negb].
      * by apply Hkeep.
      * apply Hdrop; [done|done|]. intros [_ ?]. congruence.
Qed.

(** The shared URL of any selection: the objects without package in front
    are passed over; the first asset after them stores the URL, and every
    further asset keeps it. *)
Lemma SharedValue_characterised SelectedObjects URL :
  SharedValue W SelectedObjects = Some URL ↔
  ∃ Skipped First Rest,
    SelectedObjects = (Skipped ++ First :: Rest)%list ∧
    (∀ Obj, Obj ∈ Skipped → ViewOf W Obj = NoPackage) ∧
    StoredURL W First = Some URL ∧
    ∀ Obj, Obj ∈ Rest → KeepsShared W URL Obj.
Proof.
  rewrite SharedValue_scan. unfold ScanSelectedObjects.
  induction SelectedObjects as [|Obj Objs IH].
  { cbn. split; [by intros [<- ?]|].
    intros (Skipped & ? & ? & H & _). by destruct Skipped. }
  cbn [fold_left]. rewrite LicenseScan_step_view.
  assert (StoredURL W Obj =
          match ViewOf W Obj with
          | Stored V => if IsEmpty V then None else Some V
          | _ => None
          end) as EU by apply StoredURL_view.
  assert (∀ St, bAnyHaveLicense St || bAnyMissingLicense St = true →
                SharedLicenseAssetID St = "" → StoredURL W Obj = None →
                ViewOf W Obj ≠ NoPackage →
                (SharedLicenseAssetID (fold_left (LicenseScan_step W) Objs St) = URL
                 ∧ IsEmpty URL = false) ↔
                ∃ Skipped First Rest,
                  Obj :: Objs = (Skipped ++ First :: Rest)%list ∧
                  (∀ Obj', Obj' ∈ Skipped → ViewOf W Obj' = NoPackage) ∧
                  StoredURL W First = Some URL ∧
                  ∀ Obj', Obj' ∈ Rest → KeepsShared W URL Obj') as Hnone.
  { intros St Hflag HS HU HV. rewrite scan_rest_empty by done. split.
    - intros [<- ?]. done.
    - intros (Skipped & First & Rest & E & Hskip & HF & _).
      destruct Skipped as [|S Skipped]; cbn in E; injection E as ? ?; subst.
      + congruence.
      + destruct HV. apply Hskip. by left. }
  destruct (ViewOf W Obj) as [| |V] eqn:EV.
  - (* no package: the object is passed over *)
    rewrite IH. split.
    + intros (Skipped & First & Rest & -> & Hskip & HF & HR).
      exists (Obj :: Skipped), First, Rest. split; [done|]. split; [|done].
      intros Obj' [->|?]%elem_of_cons; [done|by apply Hskip].
    + intros (Skipped & First & Rest & E & Hskip & HF & HR).
      destruct Skipped as [|S Skipped]; cbn in E; injection E as ? ?; subst.
      * rewrite StoredURL_view, EV in HF. done.
      * exists Skipped, First, Rest. split; [done|]. split; [|done].
        intros Obj' ?. apply Hskip. by right.
  - by apply Hnone.
  - destruct (IsEmpty V) eqn:EE; [by apply Hnone|].
    cbn [bAnyHaveLicense bAnyMissingLicense LicenseScan_init negb andb].
    destruct (scan_rest_shared Objs
                {| bAnyHaveLicense := true; bAnyMissingLicense := false;
                   SharedLicenseAssetID := V |}) as [Ha Hb]; [done..|].
    cbn [SharedLicenseAssetID] in Ha, Hb. split.
    + intros [E HE]. exists [], Obj, Objs. split; [done|].
      split; [intros ? H; by apply elem_of_nil in H|].
      destruct Ha as [Ha|Ha]; [|rewrite Ha in E; by subst URL].
      assert (V = URL) as -> by congruence. split; [done|]. by apply Hb.
    + intros (Skipped & First & Rest & E & Hskip & HF & HR).
      destruct Skipped as [|S Skipped]; cbn in E; injection E as ? ?; subst.
      * assert (V = URL) as -> by congruence. split; [by apply Hb|done].
      * specialize (Hskip S ltac:(by left)). congruence.
Qed.

(** An asset whose package has no metadata leaves the shared URL as it is,
    where an asset with metadata and no URL clears it. *)
Lemma LicenseScan_step_no_metadata St Obj :
  ViewOf W Obj = NoMetaData →
  SharedLicenseAssetID (LicenseScan_step W St Obj) = SharedLicenseAssetID St.
Proof. intros E. by rewrite LicenseScan_step_view, E. Qed.

Lemma LicenseScan_step_no_URL St Obj :
  ViewOf W Obj = Stored "" →
  SharedLicenseAssetID (LicenseScan_step W St Obj) = "".
Proof. intros E. by rewrite LicenseScan_step_view, E. Qed.

Lemma KeepsShared_stored URL Obj :
  HasMetaDataStore W Obj →
  KeepsShared W URL Obj ↔ ∃ V, StoredURL W Obj = Some V ∧ FString_eq V URL = true.
Proof.
  intros [V EV]%HasMetaDataStore_view. unfold KeepsShared.
  rewrite StoredURL_view, EV. destruct (IsEmpty V) eqn:EE.
  - split; [by intros [? _]|]. by intros (? & ? & _).
  - split; [intros [_ ?]; eauto|]. by intros (? & [= <-] & ?).
Qed.

(** C1 (amended): on a selection whose assets all have a metadata object to
    read, the shared URL is present exactly when the selection is not empty,
    its first asset stores a URL, and every other asset stores a URL equal to
    it under the engine's [operator==] (which ignores the case of ASCII
    letters); the shared URL is then the first asset's URL.  In every other
    case (the empty selection, an asset without URL, URLs that differ beyond
    case) it is absent. *)
Theorem SharedValue_ignoring_case SelectedObjects URL :
  (∀ Obj, Obj ∈ SelectedObjects → HasMetaDataStore W Obj) →
  SharedValue W SelectedObjects = Some URL ↔
  ∃ First Rest,
    SelectedObjects = First :: Rest ∧
    StoredURL W First = Some URL ∧
    ∀ Obj, Obj ∈ Rest →
      ∃ V, StoredURL W Obj = Some V ∧ FString_eq V URL = true.
Proof.
  intros Hstore. rewrite SharedValue_characterised. split.
  - intros (Skipped & First & Rest & -> & Hskip & HF & HR).
    destruct Skipped as [|S Skipped].
    + exists First, Rest. split; [done|]. split; [done|].
      intros Obj Hin. apply KeepsShared_stored; [|by apply HR].
      apply Hstore. by right.
    + specialize (Hskip S ltac:(by left)).
      pose proof (Hstore S ltac:(by left)) as [V EV]%HasMetaDataStore_view.
      congruence.
  - intros (First & Rest & -> & HF & HR).
    exists [], First, Rest. split; [done|].
    split; [intros ? H; by apply elem_of_nil in H|]. split; [done|].
    intros Obj Hin. apply KeepsShared_stored; [|by apply HR].
    apply Hstore. by right.
Qed.

End Selection.

(** C1, as stated, fails: the two assets of [World_case] store URLs that
    differ in the case of one letter, [operator!=] sees no difference, and
    the scan keeps the first URL as the shared one. *)
Lemma SharedValue_exact_fails : ¬ SharedValue_exact.
Proof.
  intros H.
  destruct (proj1 (H World_case [1; 2]%positive "http://X")) as [_ Hall].
  { by vm_compute. }
  specialize (Hall 2%positive ltac:(by right; left)).
  vm_compute in Hall. discriminate.
Qed.

Lemma SharedValue_ignoring_case_witness :
  SharedValue World_case [1; 2]%positive = Some "http://X" ↔
  ∃ First Rest,
    [1; 2]%positive = First :: Rest ∧
    StoredURL World_case First = Some "http://X" ∧
    ∀ Obj, Obj ∈ Rest →
      ∃ V, StoredURL World_case Obj = Some V ∧ FString_eq V "http://X" = true.
Proof.
  apply (SharedValue_ignoring_case World_case [1; 2]%positive "http://X").
  intros Obj H. by_elements H.
  - exists 11%positive. split; [reflexivity|]. packaged.
  - exists 12%positive. split; [reflexivity|]. packaged.
Defined.

(** C8 (the code departs from it): asset 2 of [World_nometa] is in a package
    without metadata.  The tally counts it as an asset with no URL, as it
    counts asset 2 of [World_unset], whose package has metadata and no URL.
    The scan of the selection does not: it keeps the URL of asset 1 as the
    shared URL, offers the direct open action and starts the edit box with
    that URL, where for [World_unset] it finds no shared URL. *)
Theorem missing_metadata_keeps_shared_URL :
  ViewOf World_nometa 2 = NoMetaData ∧
  StoredURL World_nometa 2 = None ∧
  Summarize World_nometa [1; 2]%positive = ([("http://x", 1)], 1) ∧
  Summarize World_unset [1; 2]%positive = ([("http://x", 1)], 1) ∧
  SharedValue World_unset [1; 2]%positive = None ∧
  SharedValue World_nometa [1; 2]%positive = Some "http://x" ∧
  AddViewEntry (ScanSelectedObjects World_nometa [1; 2]%positive)
    = OpenLicenseURL "http://x" ∧
  StartingValue (ScanSelectedObjects World_unset [1; 2]%positive)
    = "[multiple values]" ∧
  StartingValue (ScanSelectedObjects World_nometa [1; 2]%positive) = "http://x".
Proof. repeat split; by vm_compute. Qed.

(** *** [int32] arithmetic in range *)

Lemma wrap_int32_in_range z : - 2 ^ 31 ≤ z ≤ INT32_MAX → wrap_int32 z = z.
Proof.
  unfold wrap_int32, INT32_MAX. intros Hz.
  rewrite Z.mod_small; lia.
Qed.

Lemma int32_add_1 z : 0 ≤ z < INT32_MAX → int32_add z 1 = z + 1.
Proof. unfold int32_add, INT32_MAX. intros Hz. apply wrap_int32_in_range. unfold INT32_MAX. lia. Qed.

(** *** [TMap<FString, int32>] *)

Lemma TMap_Find_Increment Map URL Key :
  TMap_Find (TMap_FindOrAdd_Increment Map URL) Key =
  if FString_eq URL Key
  then Some (int32_add (default 0 (TMap_Find Map Key)) 1)
  else TMap_Find Map Key.
Proof.
  induction Map as [|[K V] Rest IH]; cbn [TMap_FindOrAdd_Increment TMap_Find].
  { by destruct (FString_eq URL Key). }
  destruct (FString_eq K URL) eqn:EKU; cbn [TMap_Find].
  - rewrite <- (FString_eq_compat K URL Key EKU).
    by destruct (FString_eq K Key).
  - rewrite IH. destruct (FString_eq K Key) eqn:EKK; [|done].
    destruct (FString_eq URL Key) eqn:EUK; [|done].
    rewrite FString_eq_sym in EUK.
    by rewrite (FString_eq_trans K Key URL EKK EUK) in EKU.
Qed.

Lemma TMap_Find_None Map Key :
  TMap_Find Map Key = None ↔ Forall (fun K => FString_eq K Key = false) Map.*1.
Proof.
  induction Map as [|[K V] Rest IH]; cbn [TMap_Find fmap list_fmap fst].
  { split; [constructor|done]. }
  destruct (FString_eq K Key) eqn:E.
  - split; [done|]. intros H. inversion H; subst. cbn in *. congruence.
  - rewrite IH. split; [by constructor|]. intros H. by inversion H.
Qed.

Lemma GenerateKeyArray_Increment Map URL :
  GenerateKeyArray (TMap_FindOrAdd_Increment Map URL) =
  (GenerateKeyArray Map ++
     match TMap_Find Map URL with Some _ => [] | None => [URL] end)%list.
Proof.
  unfold GenerateKeyArray.
  induction Map as [|[K V] Rest IH]; cbn [TMap_FindOrAdd_Increment TMap_Find]; [done|].
  destruct (FString_eq K URL); cbn.
  - by rewrite app_nil_r.
  - by rewrite IH.
Qed.

Lemma SumOfCounts_Increment Map URL :
  SumOfCounts (TMap_FindOrAdd_Increment Map URL) =
  SumOfCounts Map - default 0 (TMap_Find Map URL)
  + int32_add (default 0 (TMap_Find Map URL)) 1.
Proof.
  unfold SumOfCounts.
  induction Map as [|[K V] Rest IH]; cbn [TMap_FindOrAdd_Increment TMap_Find foldr].
  { cbn. lia. }
  destruct (FString_eq K URL); cbn [foldr snd default from_option id]; [lia|].
  rewrite IH. lia.
Qed.

Lemma KeysDistinct_snoc Keys K :
  KeysDistinct Keys → Forall (fun K' => FString_eq K' K = false) Keys →
  KeysDistinct (Keys ++ [K]).
Proof.
  induction Keys as [|K0 Keys IH]; cbn [KeysDistinct app]; [done|].
  intros [H0 Hd] Hall. inversion Hall; subst. split; [|by apply IH].
  apply Forall_app. split; [done|]. by constructor.
Qed.

Lemma TMap_Find_entry Map K C :
  KeysDistinct Map.*1 → (K, C) ∈ Map → TMap_Find Map K = Some C.
Proof.
  induction Map as [|[K0 V0] Rest IH]; cbn [KeysDistinct fmap list_fmap fst TMap_Find].
  { intros _ H. by apply elem_of_nil in H. }
  intros [H0 Hd] [[= <- <-]|Hin]%elem_of_cons.
  { by rewrite FString_eq_refl. }
  rewrite Forall_forall in H0.
  rewrite (H0 K); [by apply IH|].
  apply list_elem_of_fmap. by exists (K, C).
Qed.

Section Tally.
Context (W : World).

(** *** The tally *)

Lemma CollectLicenseURLs_step_stored URLUsageMap NumAssetsWithNoURL Asset :
  CollectLicenseURLs_step W (URLUsageMap, NumAssetsWithNoURL) Asset =
  match StoredURL W Asset with
  | Some URL => (TMap_FindOrAdd_Increment URLUsageMap URL, NumAssetsWithNoURL)
  | None =>
      if CountedWithNoURL W Asset
      then (URLUsageMap, int32_add NumAssetsWithNoURL 1)
      else (URLUsageMap, NumAssetsWithNoURL)
  end.
Proof.
  rewrite StoredURL_view.
  unfold CollectLicenseURLs_step, CountedWithNoURL, ViewOf.
  destruct (GetOutermost W Asset) as [Package|]; [|done].
  destruct (HasMetaData_GetMetaData W Package) as [Metadata|]; [|done].
  by destruct (IsEmpty (GetValue Metadata Asset MD_AssetSourceURL)).
Qed.

Lemma Summarize_snoc Objs Obj :
  Summarize W (Objs ++ [Obj]) = CollectLicenseURLs_step W (Summarize W Objs) Obj.
Proof. unfold Summarize, CollectLicenseURLs. by rewrite fold_left_app. Qed.

Lemma filter_length_snoc {A} (f : A → bool) (l : list A) (x : A) :
  length (List.filter f (l ++ [x])) =
  (length (List.filter f l) + if f x then 1 else 0)%nat.
Proof.
  rewrite List.filter_app, length_app. cbn. by destruct (f x).
Qed.

Lemma filter_length_le {A} (f : A → bool) (l : list A) :
  (length (List.filter f l) ≤ length l)%nat.
Proof. induction l as [|x l IH]; cbn; [lia|]. destruct (f x); cbn; lia. Qed.

Lemma Summarize_invariant Objs :
  Z.of_nat (length Objs) ≤ INT32_MAX →
  (Summarize W Objs).2 = Z.of_nat (length (List.filter (CountedWithNoURL W) Objs)) ∧
  (∀ Key, TMap_Find (Summarize W Objs).1 Key = FoundCount (UsageCount W Key Objs)) ∧
  KeysDistinct (GenerateKeyArray (Summarize W Objs).1) ∧
  (∀ K, K ∈ GenerateKeyArray (Summarize W Objs).1 →
        ∃ Obj, Obj ∈ Objs ∧ StoredURL W Obj = Some K) ∧
  SumOfCounts (Summarize W Objs).1 =
    Z.of_nat (length (List.filter (fun Obj => bool_decide (is_Some (StoredURL W Obj))) Objs)).
Proof.
  induction Objs as [|Obj Objs IH] using rev_ind; intros Hlen.
  { cbn. repeat split; try done. intros K H. by apply elem_of_nil in H. }
  rewrite length_app in Hlen. cbn [length] in Hlen.
  destruct IH as (IHn & IHfind & IHdist & IHkeys & IHsum); [lia|].
  rewrite Summarize_snoc.
  destruct (Summarize W Objs) as [Map Num] eqn:ES. cbn [fst snd] in *.
  rewrite CollectLicenseURLs_step_stored.
  rewrite !filter_length_snoc.
  assert (CountedWithNoURL W Obj = true → StoredURL W Obj = None) as Hexcl.
  { rewrite StoredURL_view. unfold CountedWithNoURL.
    destruct (ViewOf W Obj) as [| |V]; try done. by intros ->. }
  pose proof (filter_length_le (CountedWithNoURL W) Objs) as Hle1.
  destruct (StoredURL W Obj) as [URL|] eqn:EU; cbn [fst snd].
  - (* the asset stores a URL *)
    assert (CountedWithNoURL W Obj = false) as ->.
    { destruct (CountedWithNoURL W Obj) eqn:E; [|done]. by specialize (Hexcl eq_refl). }
    rewrite bool_decide_true by eauto.
    assert (∀ Key, FString_eq URL Key = true →
              int32_add (default 0 (TMap_Find Map Key)) 1
              = Z.of_nat (S (UsageCount W Key Objs))) as Hinc.
    { intros Key EK. rewrite IHfind.
      pose proof (filter_length_le (MatchesURL W Key) Objs) as Hle.
      fold (UsageCount W Key Objs) in Hle.
      assert (default 0 (FoundCount (UsageCount W Key Objs))
              = Z.of_nat (UsageCount W Key Objs)) as ->
        by (by destruct (UsageCount W Key Objs)).
      rewrite int32_add_1; lia. }
    split; [rewrite IHn; lia|]. split; [|split; [|split]].
    + intros Key. rewrite TMap_Find_Increment.
      unfold UsageCount. rewrite filter_length_snoc.
      fold (UsageCount W Key Objs). unfold MatchesURL. rewrite EU.
      destruct (FString_eq URL Key) eqn:EK.
      * rewrite (Hinc _ EK). by rewrite Nat.add_1_r.
      * by rewrite IHfind, Nat.add_0_r.
    + rewrite GenerateKeyArray_Increment.
      destruct (TMap_Find Map URL) eqn:EF; [by rewrite app_nil_r|].
      apply KeysDistinct_snoc; [done|]. by apply TMap_Find_None.
    + intros K. rewrite GenerateKeyArray_Increment.
      intros [Hin|Hin]%elem_of_app.
      * destruct (IHkeys K Hin) as (Obj' & ? & ?). exists Obj'.
        split; [|done]. apply elem_of_app. by left.
      * destruct (TMap_Find Map URL); [by apply elem_of_nil in Hin|].
        apply list_elem_of_singleton in Hin as ->. exists Obj.
        split; [|done]. apply elem_of_app. right. by left.
    + rewrite SumOfCounts_Increment, (Hinc URL (FString_eq_refl URL)).
      rewrite IHfind, IHsum.
      assert (default 0 (FoundCount (UsageCount W URL Objs))
              = Z.of_nat (UsageCount W URL Objs)) as ->
        by (by destruct (UsageCount W URL Objs)).
      lia.
  - (* the asset stores no URL *)
    rewrite bool_decide_false by (by intros [? ?]).
    assert (∀ Key, UsageCount W Key (Objs ++ [Obj]) = UsageCount W Key Objs) as Hcount.
    { intros Key. unfold UsageCount. rewrite filter_length_snoc.
      unfold MatchesURL. rewrite EU. lia. }
    destruct (CountedWithNoURL W Obj); cbn [fst snd].
    + split; [rewrite IHn, int32_add_1; lia|].
      split; [by intros Key; rewrite Hcount|]. split; [done|]. split.
      * intros K Hin. destruct (IHkeys K Hin) as (Obj' & ? & ?). exists Obj'.
        split; [|done]. apply elem_of_app. by left.
      * rewrite IHsum. lia.
    + split; [rewrite IHn; lia|].
      split; [by intros Key; rewrite Hcount|]. split; [done|]. split.
      * intros K Hin. destruct (IHkeys K Hin) as (Obj' & ? & ?). exists Obj'.
        split; [|done]. apply elem_of_app. by left.
      * rewrite IHsum. lia.
Qed.

Lemma CountedWithNoURL_packaged Obj :
  is_Some (GetOutermost W Obj) →
  CountedWithNoURL W Obj = bool_decide (StoredURL W Obj = None).
Proof.
  intros HP%HasPackage_view. rewrite StoredURL_view. unfold CountedWithNoURL.
  destruct (ViewOf W Obj) as [| |V]; [done|done|].
  by destruct (IsEmpty V).
Qed.

Lemma NoURLCount_packaged Objs :
  (∀ Obj, Obj ∈ Objs → is_Some (GetOutermost W Obj)) →
  length (List.filter (CountedWithNoURL W) Objs) = NoURLCount W Objs.
Proof.
  unfold NoURLCount. induction Objs as [|Obj Objs IH]; intros HP; [done|].
  cbn [List.filter]. rewrite CountedWithNoURL_packaged by (apply HP; left).
  destruct (bool_decide (StoredURL W Obj = None)); cbn [length];
    rewrite IH; try done; intros; apply HP; by right.
Qed.

Lemma stored_or_not_length Objs :
  (length (List.filter (fun Obj => bool_decide (is_Some (StoredURL W Obj))) Objs)
   + NoURLCount W Objs = length Objs)%nat.
Proof.
  unfold NoURLCount. induction Objs as [|Obj Objs IH]; [done|].
  cbn [List.filter]. destruct (StoredURL W Obj) as [URL|].
  - rewrite bool_decide_true by eauto. rewrite bool_decide_false by done.
    cbn [length]. lia.
  - rewrite bool_decide_false by (by intros [? ?]). rewrite bool_decide_true by done.
    cbn [length]. lia.
Qed.

Lemma TMap_Find_Some_key Map Key C :
  TMap_Find Map Key = Some C → ∃ K, K ∈ Map.*1 ∧ FString_eq K Key = true.
Proof.
  induction Map as [|[K V] Rest IH]; cbn [TMap_Find]; [done|].
  destruct (FString_eq K Key) eqn:E.
  - intros _. exists K. split; [by left|done].
  - intros (K' & ? & ?)%IH. exists K'. split; [by right|done].
Qed.

(** C2: the counts of the tally and [NumAssetsWithNoURL] add up to the
    number of assets of the selection.  Every asset of the selection has its
    package, as the engine's [GetOutermost] gives it, and the selection is an
    engine array, whose length is an [int32]. *)
Theorem Summarize_accounts_for_every_asset SelectedObjects :
  (∀ Obj, Obj ∈ SelectedObjects → is_Some (GetOutermost W Obj)) →
  Z.of_nat (length SelectedObjects) ≤ INT32_MAX →
  SumOfCounts (Summarize W SelectedObjects).1 + (Summarize W SelectedObjects).2
  = Z.of_nat (length SelectedObjects).
Proof.
  intros HP Hlen.
  destruct (Summarize_invariant SelectedObjects Hlen) as (-> & _ & _ & _ & ->).
  rewrite NoURLCount_packaged by done.
  rewrite <- (stored_or_not_length SelectedObjects). lia.
Qed.

(** C3 (amended): the keys of the tally are the URLs that occur, up to the
    case of ASCII letters: no two keys are equal under [operator==], every key
    is the URL of some asset, every asset's URL is equal to a key under
    [operator==], and each key is mapped to the number of assets whose URL
    equals it under [operator==], which is at least 1.  An asset with a URL
    increments the entry found for that URL, every other asset increments
    [NumAssetsWithNoURL], which is the number of assets without URL; the
    empty selection gives the empty tally and 0. *)
Theorem Summarize_tally_ignoring_case SelectedObjects :
  (∀ Obj, Obj ∈ SelectedObjects → is_Some (GetOutermost W Obj)) →
  Z.of_nat (length SelectedObjects) ≤ INT32_MAX →
  let URLUsageMap := (Summarize W SelectedObjects).1 in
  let NumAssetsWithNoURL := (Summarize W SelectedObjects).2 in
  (∀ Obj, is_Some (GetOutermost W Obj) →
     Z.of_nat (length SelectedObjects) < INT32_MAX →
     Summarize W (SelectedObjects ++ [Obj]) =
     match StoredURL W Obj with
     | Some URL => (TMap_FindOrAdd_Increment URLUsageMap URL, NumAssetsWithNoURL)
     | None => (URLUsageMap, NumAssetsWithNoURL + 1)
     end) ∧
  KeysDistinct (GenerateKeyArray URLUsageMap) ∧
  (∀ K, K ∈ GenerateKeyArray URLUsageMap →
     ∃ Obj, Obj ∈ SelectedObjects ∧ StoredURL W Obj = Some K) ∧
  (∀ Obj URL, Obj ∈ SelectedObjects → StoredURL W Obj = Some URL →
     ∃ K, K ∈ GenerateKeyArray URLUsageMap ∧ FString_eq K URL = true) ∧
  (∀ K C, (K, C) ∈ URLUsageMap →
     C = Z.of_nat (UsageCount W K SelectedObjects) ∧ 1 ≤ C) ∧
  NumAssetsWithNoURL = Z.of_nat (NoURLCount W SelectedObjects) ∧
  Summarize W [] = ([], 0).
Proof.
  intros HP Hlen. cbn zeta.
  destruct (Summarize_invariant SelectedObjects Hlen)
    as (Hn & Hfind & Hdist & Hkeys & _).
  rewrite NoURLCount_packaged in Hn by done.
  split; [|split; [done|split; [done|split; [|split; [|done]]]]].
  - intros Obj HPO Hlt. rewrite Summarize_snoc.
    destruct (Summarize W SelectedObjects) as [Map Num] eqn:ES. cbn [fst snd] in *.
    rewrite CollectLicenseURLs_step_stored.
    destruct (StoredURL W Obj) as [URL|] eqn:EU; [done|].
    rewrite CountedWithNoURL_packaged, EU, bool_decide_true by done.
    rewrite int32_add_1; [done|].
    pose proof (filter_length_le (fun Obj => bool_decide (StoredURL W Obj = None))
                  SelectedObjects).
    unfold NoURLCount in Hn. lia.
  - intros Obj URL Hin HU.
    specialize (Hfind URL).
    assert (UsageCount W URL SelectedObjects ≠ 0%nat) as Hpos.
    { unfold UsageCount. intros H0%length_zero_iff_nil.
      assert (In Obj (List.filter (MatchesURL W URL) SelectedObjects)) as HIn.
      { apply filter_In. split; [by apply list_elem_of_In|].
        unfold MatchesURL. rewrite HU. apply FString_eq_refl. }
      by rewrite H0 in HIn. }
    destruct (UsageCount W URL SelectedObjects) as [|c] eqn:EC; [done|].
    by apply TMap_Find_Some_key in Hfind.
  - intros K C Hin.
    pose proof (TMap_Find_entry _ _ _ Hdist Hin) as HF.
    rewrite Hfind in HF.
    destruct (UsageCount W K SelectedObjects) as [|c]; [done|].
    injection HF as <-. lia.
Qed.

End Tally.

Lemma Summarize_accounts_for_every_asset_witness :
  SumOfCounts (Summarize World_xxy [1; 2; 3]%positive).1
  + (Summarize World_xxy [1; 2; 3]%positive).2 = 3.
Proof.
  apply (Summarize_accounts_for_every_asset World_xxy [1; 2; 3]%positive).
  - intros Obj H. by_elements H; packaged.
  - by vm_compute.
Defined.

(** C3, as stated, fails: the two assets of [World_case] store two distinct
    strings, and the tally has the single entry ("http://X", 2). *)
Lemma Summarize_exact_fails : ¬ Summarize_exact.
Proof.
  intros H.
  destruct (proj1 (H World_case [1; 2]%positive
                     ltac:(intros Obj Hin; by_elements Hin; packaged)
                     ltac:(by vm_compute) "http://X" 2)) as [Hcount _].
  { vm_compute. left. }
  vm_compute in Hcount. discriminate.
Qed.

Lemma Summarize_tally_ignoring_case_witness :
  2 = Z.of_nat (UsageCount World_case "http://X" [1; 2]%positive) ∧ 1 ≤ 2.
Proof.
  apply (Summarize_tally_ignoring_case World_case [1; 2]%positive).
  - intros Obj H. by_elements H; packaged.
  - by vm_compute.
  - vm_compute. left.
Defined.

(** *** The ranking *)

Lemma Stricmp_eq_compat_r S1 S2 S3 :
  Stricmp S2 S3 = Eq → Stricmp S1 S2 = Stricmp S1 S3.
Proof.
  intros H. rewrite (Stricmp_antisym S2 S1), (Stricmp_antisym S3 S1).
  f_equal. apply Stricmp_eq_compat. done.
Qed.

Lemma Stricmp_not_gt_trans S1 S2 S3 :
  Stricmp S1 S2 ≠ Gt → Stricmp S2 S3 ≠ Gt → Stricmp S1 S3 ≠ Gt.
Proof.
  intros H12 H23.
  destruct (Stricmp S1 S2) eqn:E12; [| |done].
  - by rewrite (Stricmp_eq_compat _ _ _ E12).
  - destruct (Stricmp S2 S3) eqn:E23; [| |done].
    + by rewrite <- (Stricmp_eq_compat_r _ _ _ E23), E12.
    + by rewrite (Stricmp_lt_trans _ _ _ E12 E23).
Qed.

Lemma SortByUsage_true URLUsageMap A B :
  SortByUsage URLUsageMap A B = true ↔
  RankedBefore (A, TMap_At URLUsageMap A) (B, TMap_At URLUsageMap B).
Proof.
  unfold SortByUsage, RankedBefore, FString_lt. cbn [fst snd].
  destruct (Z.eqb_spec (TMap_At URLUsageMap A) (TMap_At URLUsageMap B)) as [E|E].
  - destruct (Stricmp A B); split; try done; try (intros [?|[_ ?]]; [lia|done]).
    intros _. by right.
  - rewrite Z.gtb_gt. split; [by left|]. intros [?|[? _]]; done.
Qed.

Lemma NotAfter_SortByUsage URLUsageMap A B :
  NotAfter (SortByUsage URLUsageMap) A B ↔
  TMap_At URLUsageMap A > TMap_At URLUsageMap B ∨
  (TMap_At URLUsageMap A = TMap_At URLUsageMap B ∧ Stricmp A B ≠ Gt).
Proof.
  unfold NotAfter, SortByUsage, FString_lt.
  rewrite (Stricmp_antisym A B).
  destruct (Z.eqb_spec (TMap_At URLUsageMap B) (TMap_At URLUsageMap A)) as [E|E].
  - destruct (Stricmp A B); cbn; split; try done;
      try (intros _; by right); try (intros [?|[_ ?]]; [lia|done]).
  - destruct (Z.gtb_spec (TMap_At URLUsageMap B) (TMap_At URLUsageMap A)); split;
      try done; try (intros _; left; lia); intros [?|[? _]]; [lia|done].
Qed.

Lemma NotAfter_SortByUsage_total URLUsageMap : Total (NotAfter (SortByUsage URLUsageMap)).
Proof.
  intros A B. rewrite !NotAfter_SortByUsage, (Stricmp_antisym A B).
  destruct (Z.lt_trichotomy (TMap_At URLUsageMap A) (TMap_At URLUsageMap B))
    as [?|[?|?]]; [right; left; lia| |left; left; lia].
  destruct (Stricmp A B); cbn; [left|left|right]; by right.
Qed.

Lemma NotAfter_SortByUsage_transitive URLUsageMap :
  Transitive (NotAfter (SortByUsage URLUsageMap)).
Proof.
  intros A B C. rewrite !NotAfter_SortByUsage.
  intros [?|[? HAB]] [?|[? HBC]]; try (left; lia).
  right. split; [lia|]. by eapply Stricmp_not_gt_trans.
Qed.

Lemma KeysDistinct_Permutation Keys1 Keys2 :
  Keys1 ≡ₚ Keys2 → KeysDistinct Keys1 → KeysDistinct Keys2.
Proof.
  induction 1 as [|K l1 l2 HP IH|K1 K2 l|l1 l2 l3 HP1 IH1 HP2 IH2];
    cbn [KeysDistinct]; [done| | |tauto].
  - intros [H ?]. split; [by rewrite <- HP|tauto].
  - intros [H1 [H2 ?]]. inversion H1; subst.
    split; [|done]. constructor; [|done]. by rewrite FString_eq_sym.
Qed.

Lemma sorted_distinct_strict URLUsageMap Keys :
  KeysDistinct Keys →
  StronglySorted (NotAfter (SortByUsage URLUsageMap)) Keys →
  StronglySorted (fun A B => SortByUsage URLUsageMap A B = true) Keys.
Proof.
  induction 2 as [|K Keys HS IH HK]; [constructor|].
  destruct H as [Hd ?]. constructor; [by apply IH|].
  rewrite Forall_forall in *. intros B HB.
  specialize (Hd B HB). specialize (HK B HB).
  apply SortByUsage_true. unfold RankedBefore. cbn [fst snd].
  apply NotAfter_SortByUsage in HK as [?|[? HK]]; [by left|right].
  split; [done|]. unfold FString_eq in Hd. by destruct (Stricmp K B).
Qed.

(** Each entry of a well-formed map is what [operator[]] gives for its key. *)
Lemma TMap_entries URLUsageMap :
  KeysDistinct (GenerateKeyArray URLUsageMap) →
  (fun URL => (URL, TMap_At URLUsageMap URL)) <$> GenerateKeyArray URLUsageMap
  = URLUsageMap.
Proof.
  intros Hd. unfold GenerateKeyArray. rewrite <- list_fmap_compose.
  etransitivity; [|apply list_fmap_id].
  apply list_fmap_ext. intros i [K C] Hi. cbn.
  unfold TMap_At. rewrite (TMap_Find_entry URLUsageMap K C); [done|done|].
  by eapply list_elem_of_lookup_2.
Qed.

Lemma RankedBefore_asym A B : RankedBefore A B → RankedBefore B A → False.
Proof.
  unfold RankedBefore. rewrite (Stricmp_antisym A.1 B.1).
  intros [?|[? HAB]] [?|[? HBA]]; try lia.
  rewrite HAB in HBA. done.
Qed.

Lemma SortURLsByUsage_sorted URLUsageMap :
  KeysDistinct (GenerateKeyArray URLUsageMap) →
  SortURLsByUsage URLUsageMap ≡ₚ GenerateKeyArray URLUsageMap ∧
  StronglySorted (fun A B => SortByUsage URLUsageMap A B = true)
    (SortURLsByUsage URLUsageMap).
Proof.
  intros Hd. unfold SortURLsByUsage, Sort.
  pose proof (merge_sort_Permutation (NotAfter (SortByUsage URLUsageMap))
                (GenerateKeyArray URLUsageMap)) as HP.
  split; [done|].
  apply sorted_distinct_strict.
  - eapply KeysDistinct_Permutation; [|done]. by symmetry.
  - apply (@StronglySorted_merge_sort _ _ _
             (NotAfter_SortByUsage_transitive URLUsageMap)
             (NotAfter_SortByUsage_total URLUsageMap)).
Qed.

Lemma RankedList_sorted URLUsageMap :
  KeysDistinct (GenerateKeyArray URLUsageMap) →
  RankedList URLUsageMap ≡ₚ URLUsageMap ∧
  StronglySorted RankedBefore (RankedList URLUsageMap).
Proof.
  intros Hd. destruct (SortURLsByUsage_sorted _ Hd) as [HP HS].
  unfold RankedList. split.
  - rewrite HP. by rewrite TMap_entries.
  - eapply StronglySorted_fmap; [|done].
    intros A B. apply SortByUsage_true.
Qed.

Lemma RankedBefore_unique l1 l2 :
  StronglySorted RankedBefore l1 → StronglySorted RankedBefore l2 →
  l1 ≡ₚ l2 → l1 = l2.
Proof.
  apply StronglySorted_unique_strong.
  intros A B _ _ HAB HBA. destruct (RankedBefore_asym _ _ HAB HBA).
Qed.

(** The array [Sort] returns does not depend on how it is computed: an
    arrangement of the keys that the predicate orders is the one of the
    model. *)
Lemma SortURLsByUsage_unique URLUsageMap Keys :
  KeysDistinct (GenerateKeyArray URLUsageMap) →
  Keys ≡ₚ GenerateKeyArray URLUsageMap →
  StronglySorted (fun A B => SortByUsage URLUsageMap A B = true) Keys →
  Keys = SortURLsByUsage URLUsageMap.
Proof.
  intros Hd HP HS. destruct (SortURLsByUsage_sorted _ Hd) as [HP' HS'].
  eapply StronglySorted_unique_strong; [|done|done|by rewrite HP, HP'].
  intros A B _ _ HAB%SortByUsage_true HBA%SortByUsage_true.
  destruct (RankedBefore_asym _ _ HAB HBA).
Qed.

(** C4, as stated, fails: "a" and "B" are used once each; by code units "B"
    comes first, and the list has "a" first. *)
Lemma RankedList_bytes_fails : ¬ RankedList_bytes.
Proof.
  intros H. specialize (H [("B", 1); ("a", 1)]).
  assert (RankedList [("B", 1); ("a", 1)] = [("a", 1); ("B", 1)]) as E
    by (by vm_compute).
  rewrite E in H.
  assert (StronglySorted RankedBefore_bytes [("a", 1); ("B", 1)]) as HS.
  { apply H. cbn. repeat split; repeat constructor. }
  apply StronglySorted_inv in HS as [_ HF].
  apply Forall_inv in HF. unfold RankedBefore_bytes in HF. cbn in HF.
  destruct HF as [?|[_ ?]]; [lia|done].
Qed.

(** C4 (amended): the entries of the ranked list are those of the tally, in
    descending order of count, ties broken by ascending order of the URL
    under the engine's [operator<], which compares ASCII letters without
    regard to case.  The order is strict and total on the keys of a tally, so
    the list is the only arrangement of the entries in that order, and two
    tallies with the same entries yield the same list, whatever order the
    maps hold them in. *)
Theorem RankedList_by_count_then_URL URLUsageMap :
  KeysDistinct (GenerateKeyArray URLUsageMap) →
  RankedList URLUsageMap ≡ₚ URLUsageMap ∧
  StronglySorted RankedBefore (RankedList URLUsageMap) ∧
  (∀ Entries, Entries ≡ₚ URLUsageMap → StronglySorted RankedBefore Entries →
     Entries = RankedList URLUsageMap) ∧
  (∀ URLUsageMap' : TMap_FString_int32,
     URLUsageMap' ≡ₚ URLUsageMap → RankedList URLUsageMap' = RankedList URLUsageMap).
Proof.
  intros Hd. destruct (RankedList_sorted _ Hd) as [HP HS].
  split; [done|]. split; [done|]. split.
  - intros Entries HPE HSE. apply RankedBefore_unique; [done|done|].
    by rewrite HPE, HP.
  - intros Map' HP'.
    assert (KeysDistinct (GenerateKeyArray Map')) as Hd'.
    { eapply KeysDistinct_Permutation; [|exact Hd].
      unfold GenerateKeyArray. by rewrite HP'. }
    destruct (RankedList_sorted _ Hd') as [HPM HSM].
    apply RankedBefore_unique; [done|done|]. by rewrite HPM, HP', HP.
Qed.

Lemma RankedList_by_count_then_URL_witness :
  RankedList [("B", 1); ("a", 1); ("c", 3)] ≡ₚ [("B", 1); ("a", 1); ("c", 3)] ∧
  StronglySorted RankedBefore (RankedList [("B", 1); ("a", 1); ("c", 3)]).
Proof.
  pose proof (RankedList_by_count_then_URL [("B", 1); ("a", 1); ("c", 3)]) as H.
  destruct H as (HP & HS & _).
  - cbn. repeat split; repeat constructor.
  - by split.
Defined.

(** *** The commit handler *)

Lemma SetAssetSource_step_write EndingValue W WeakPtr :
  SetAssetSource_step EndingValue W WeakPtr =
  match GetOutermost W WeakPtr with
  | Some Package => WriteAssetSource EndingValue Package WeakPtr W
  | None => W
  end.
Proof.
  unfold SetAssetSource_step, WeakPtr_Get, GetOutermost, WriteAssetSource.
  destruct (Objects W !! WeakPtr) as [Data|] eqn:E; cbn [mbind option_bind].
  - rewrite decide_True by eauto. unfold GetOutermost. by rewrite E.
  - by rewrite decide_False by (by intros [? ?]).
Qed.

Lemma WriteAssetSource_Objects EndingValue Package Asset W :
  Objects (WriteAssetSource EndingValue Package Asset W) = Objects W.
Proof. unfold WriteAssetSource. by destruct (IsEmpty EndingValue). Qed.

Lemma WriteAssetSource_GetOutermost EndingValue Package Asset W Obj :
  GetOutermost (WriteAssetSource EndingValue Package Asset W) Obj = GetOutermost W Obj.
Proof. unfold GetOutermost. by rewrite WriteAssetSource_Objects. Qed.

Lemma SetAssetSource_step_GetOutermost EndingValue W WeakPtr Obj :
  GetOutermost (SetAssetSource_step EndingValue W WeakPtr) Obj = GetOutermost W Obj.
Proof.
  rewrite SetAssetSource_step_write. destruct (GetOutermost W WeakPtr); [|done].
  apply WriteAssetSource_GetOutermost.
Qed.

Lemma SetAssetSourceTransaction_snoc WeakObjects WeakPtr EndingValue W :
  SetAssetSourceTransaction (WeakObjects ++ [WeakPtr]) EndingValue W =
  SetAssetSource_step EndingValue
    (SetAssetSourceTransaction WeakObjects EndingValue W) WeakPtr.
Proof. unfold SetAssetSourceTransaction. by rewrite fold_left_app. Qed.

Lemma SetAssetSourceTransaction_GetOutermost WeakObjects EndingValue W Obj :
  GetOutermost (SetAssetSourceTransaction WeakObjects EndingValue W) Obj
  = GetOutermost W Obj.
Proof.
  induction WeakObjects as [|WeakPtr WeakObjects IH] using rev_ind; [done|].
  by rewrite SetAssetSourceTransaction_snoc, SetAssetSource_step_GetOutermost.
Qed.

(** The metadata a package holds after one write. *)
Lemma WriteAssetSource_PackageMetaData EndingValue Package Asset W :
  PackageMetaData (WriteAssetSource EndingValue Package Asset W) =
  <[Package :=
      if IsEmpty EndingValue
      then delete (Asset, MD_AssetSourceURL) (default ∅ (PackageMetaData W !! Package))
      else <[(Asset, MD_AssetSourceURL) := EndingValue]>
             (default ∅ (PackageMetaData W !! Package))]>
    (PackageMetaData W).
Proof. unfold WriteAssetSource. by destruct (IsEmpty EndingValue). Qed.

Lemma WriteAssetSource_DirtyPackages EndingValue Package Asset W :
  DirtyPackages (WriteAssetSource EndingValue Package Asset W)
  = {[Package]} ∪ DirtyPackages W.
Proof. unfold WriteAssetSource. by destruct (IsEmpty EndingValue). Qed.

Lemma WriteAssetSource_AssetRegistry EndingValue Package Asset W :
  AssetRegistry (WriteAssetSource EndingValue Package Asset W) = AssetRegistry W.
Proof. unfold WriteAssetSource. by destruct (IsEmpty EndingValue). Qed.

Lemma World_eq W1 W2 :
  Objects W1 = Objects W2 → PackageMetaData W1 = PackageMetaData W2 →
  DirtyPackages W1 = DirtyPackages W2 → AssetRegistry W1 = AssetRegistry W2 →
  W1 = W2.
Proof. destruct W1, W2. cbn. by intros -> -> -> ->. Qed.

(** The annotation of any asset after one write. *)
Lemma WriteAssetSource_Annotation EndingValue Package Asset W Obj :
  GetOutermost W Asset = Some Package →
  Annotation (WriteAssetSource EndingValue Package Asset W) Obj =
  if decide (Obj = Asset)
  then (if IsEmpty EndingValue then None else Some EndingValue)
  else Annotation W Obj.
Proof.
  intros HP. unfold Annotation.
  rewrite WriteAssetSource_GetOutermost, WriteAssetSource_PackageMetaData.
  destruct (decide (Obj = Asset)) as [->|Hne].
  - rewrite HP. cbn [mbind option_bind]. rewrite lookup_insert_eq. cbn [mbind option_bind].
    destruct (IsEmpty EndingValue).
    + apply lookup_delete_eq.
    + apply lookup_insert_eq.
  - destruct (GetOutermost W Obj) as [Q|]; [|done]. cbn [mbind option_bind].
    destruct (decide (Q = Package)) as [->|HQ].
    + rewrite lookup_insert_eq. cbn [mbind option_bind].
      assert ((Asset, MD_AssetSourceURL) ≠ (Obj, MD_AssetSourceURL)) by congruence.
      destruct (IsEmpty EndingValue);
        [rewrite lookup_delete_ne by done|rewrite lookup_insert_ne by done];
        by destruct (PackageMetaData W !! Package).
    + by rewrite lookup_insert_ne.
Qed.

Lemma SetAssetSourceTransaction_Annotation WeakObjects EndingValue W Obj :
  Annotation (SetAssetSourceTransaction WeakObjects EndingValue W) Obj =
  if bool_decide (Obj ∈ WeakObjects ∧ is_Some (GetOutermost W Obj))
  then (if IsEmpty EndingValue then None else Some EndingValue)
  else Annotation W Obj.
Proof.
  induction WeakObjects as [|WeakPtr WeakObjects IH] using rev_ind.
  { rewrite bool_decide_false; [done|]. intros [H _]. by apply elem_of_nil in H. }
  rewrite SetAssetSourceTransaction_snoc, SetAssetSource_step_write.
  rewrite SetAssetSourceTransaction_GetOutermost.
  destruct (GetOutermost W WeakPtr) as [Package|] eqn:EP.
  - rewrite WriteAssetSource_Annotation
      by (by rewrite SetAssetSourceTransaction_GetOutermost).
    destruct (decide (Obj = WeakPtr)) as [->|Hne].
    + rewrite bool_decide_true; [done|]. split; [|by rewrite EP].
      apply elem_of_app. right. by left.
    + rewrite IH.
      assert ((Obj ∈ WeakObjects ∧ is_Some (GetOutermost W Obj)) ↔
              (Obj ∈ (WeakObjects ++ [WeakPtr])%list ∧ is_Some (GetOutermost W Obj)))
        as Hiff by (rewrite elem_of_app, list_elem_of_singleton; tauto).
      by rewrite (bool_decide_ext _ _ Hiff).
  - rewrite IH.
    assert ((Obj ∈ WeakObjects ∧ is_Some (GetOutermost W Obj)) ↔
            (Obj ∈ (WeakObjects ++ [WeakPtr])%list ∧ is_Some (GetOutermost W Obj)))
      as Hiff.
    { rewrite elem_of_app, list_elem_of_singleton. split; [tauto|].
      intros [[?| ->] HS]; [done|]. rewrite EP in HS. by destruct HS. }
    by rewrite (bool_decide_ext _ _ Hiff).
Qed.

Lemma StoredURL_Annotation W Obj :
  StoredURL W Obj =
  Annotation W Obj ≫= fun V => if IsEmpty V then None else Some V.
Proof.
  unfold StoredURL, Annotation, HasMetaData_GetMetaData, GetValue.
  destruct (GetOutermost W Obj) as [Package|]; [|done]. cbn [mbind option_bind].
  destruct (PackageMetaData W !! Package) as [Metadata|]; [|done].
  cbn [mbind option_bind].
  by destruct (Metadata !! (Obj, MD_AssetSourceURL)).
Qed.

Lemma RequestedAnnotation_text NewValue :
  RequestedAnnotation NewValue =
  if IsEmpty (CommittedText NewValue) then None else Some (CommittedText NewValue).
Proof. by destruct NewValue as [V|]. Qed.

Lemma SetLicenseURLAction_commit WeakObjects Start Val TextCommitType W :
  TextCommitType ≠ OnCleared → FString_eq Val Start = false →
  SetLicenseURLAction WeakObjects Start Val TextCommitType W
  = SetAssetSourceTransaction WeakObjects Val W.
Proof.
  intros HT HV. unfold SetLicenseURLAction, FString_ne. rewrite HV.
  by destruct TextCommitType.
Qed.

Lemma SetLicenseURLAction_unchanged WeakObjects Start Val TextCommitType W :
  FString_eq Val Start = true ∨ TextCommitType = OnCleared →
  SetLicenseURLAction WeakObjects Start Val TextCommitType W = W.
Proof.
  unfold SetLicenseURLAction, FString_ne. intros [-> | ->].
  - by rewrite andb_false_r.
  - done.
Qed.

(** The claim as worded fails of the handler: with the assets 1, 2 and 3 of
    [World_xxy] selected the edit box starts with "[multiple values]", and a
    commit of that text is passed over by the guard, so asset 3 keeps
    "http://y". *)
Theorem SetAnnotation_every_value_fails : ¬ SetAnnotation_every_value.
Proof.
  intros H.
  specialize (H World_xxy [1; 2; 3]%positive (Some "[multiple values]") OnEnter).
  cbn zeta in H.
  assert (Annotation
            (SetLicenseURLAction [1; 2; 3]%positive
               (StartingValue (ScanSelectedObjects World_xxy [1; 2; 3]%positive))
               (CommittedText (Some "[multiple values]")) OnEnter World_xxy)
            3%positive
          = RequestedAnnotation (Some "[multiple values]")) as E.
  { apply H; [done| |by vm_compute; eauto]. by right; right; left. }
  vm_compute in E. discriminate.
Qed.

(** C5 (amended): the handler of the edit box (SetAnnotation) writes on a
    commit that is not a cleared one and whose text [operator!=] tells apart
    from the starting text.  Then every asset of the sequence that is still
    there, with its package, is left without annotation when the new value
    is absent or the empty string, and with the new value as its annotation
    otherwise; the queries then read that URL, or none; the assets outside
    the sequence keep their annotation.  On every other commit (a cleared
    one, or a text equal to the starting text under [operator==], that is,
    up to the case of ASCII letters) nothing is written: the state is as
    before.  The handler gets a text, so a value that is absent comes as the
    empty text; the empty text removes the value from the metadata, it does
    not store an empty one. *)
Theorem SetLicenseURLAction_sets_or_removes W WeakObjects Start NewValue TextCommitType :
  let Val := CommittedText NewValue in
  let W' := SetLicenseURLAction WeakObjects Start Val TextCommitType W in
  (TextCommitType ≠ OnCleared → FString_eq Val Start = false →
   (∀ Asset, Asset ∈ WeakObjects → is_Some (GetOutermost W Asset) →
      Annotation W' Asset = RequestedAnnotation NewValue ∧
      StoredURL W' Asset = RequestedAnnotation NewValue) ∧
   (∀ Obj, Obj ∉ WeakObjects → Annotation W' Obj = Annotation W Obj)) ∧
  (TextCommitType = OnCleared ∨ FString_eq Val Start = true → W' = W).
Proof.
  cbn zeta. split.
  - intros HT HV. rewrite SetLicenseURLAction_commit by done. split.
    + intros Asset Hin HP.
      assert (Annotation
                (SetAssetSourceTransaction WeakObjects (CommittedText NewValue) W) Asset
              = RequestedAnnotation NewValue) as HA.
      { rewrite SetAssetSourceTransaction_Annotation, bool_decide_true by done.
        by rewrite RequestedAnnotation_text. }
      split; [done|]. rewrite StoredURL_Annotation, HA.
      destruct NewValue as [V|]; [|done]. cbn.
      destruct (IsEmpty V) eqn:E; [done|]. cbn. by rewrite E.
    + intros Obj Hnin.
      rewrite SetAssetSourceTransaction_Annotation, bool_decide_false; [done|].
      by intros [? _].
  - intros H. apply SetLicenseURLAction_unchanged. tauto.
Qed.

Lemma SetLicenseURLAction_sets_or_removes_witness :
  Annotation
    (SetLicenseURLAction [1; 2]%positive "http://x" (CommittedText (Some "http://z"))
       OnEnter World_nometa) 2
  = Some "http://z" ∧
  Annotation
    (SetLicenseURLAction [1; 2]%positive "http://x" (CommittedText None)
       OnEnter World_nometa) 1
  = None ∧
  SetLicenseURLAction [1; 2]%positive "http://x" (CommittedText (Some "HTTP://X"))
    OnEnter World_nometa
  = World_nometa.
Proof.
  split; [|split].
  - apply (SetLicenseURLAction_sets_or_removes World_nometa [1; 2]%positive
             "http://x" (Some "http://z") OnEnter); [done|done| |by vm_compute; eauto].
    by right; left.
  - apply (SetLicenseURLAction_sets_or_removes World_nometa [1; 2]%positive
             "http://x" None OnEnter); [done|done| |by vm_compute; eauto].
    by left.
  - apply (SetLicenseURLAction_sets_or_removes World_nometa [1; 2]%positive
             "http://x" (Some "HTTP://X") OnEnter). by right.
Defined.

(** *** Writing twice *)

Lemma WriteAssetSource_idem EndingValue Package Asset W :
  WriteAssetSource EndingValue Package Asset
    (WriteAssetSource EndingValue Package Asset W)
  = WriteAssetSource EndingValue Package Asset W.
Proof.
  apply World_eq.
  - by rewrite !WriteAssetSource_Objects.
  - rewrite !WriteAssetSource_PackageMetaData.
    rewrite lookup_insert_eq, insert_insert_eq. cbn [default from_option id].
    f_equal. destruct (IsEmpty EndingValue).
    + apply delete_id, lookup_delete_eq.
    + apply insert_insert_eq.
  - rewrite !WriteAssetSource_DirtyPackages.
    by rewrite (assoc_L (∪)), (idemp_L (∪)).
  - by rewrite !WriteAssetSource_AssetRegistry.
Qed.

Lemma WriteAssetSource_comm EndingValue Package1 Asset1 Package2 Asset2 W :
  WriteAssetSource EndingValue Package1 Asset1
    (WriteAssetSource EndingValue Package2 Asset2 W)
  = WriteAssetSource EndingValue Package2 Asset2
      (WriteAssetSource EndingValue Package1 Asset1 W).
Proof.
  apply World_eq.
  - by rewrite !WriteAssetSource_Objects.
  - rewrite !WriteAssetSource_PackageMetaData.
    destruct (decide (Package1 = Package2)) as [->|Hne].
    + rewrite !lookup_insert_eq, !insert_insert_eq. cbn [default from_option id].
      f_equal. set (Metadata := default ∅ (PackageMetaData W !! Package2)).
      destruct (decide (Asset1 = Asset2)) as [->|HA]; [done|].
      assert ((Asset1, MD_AssetSourceURL) ≠ (Asset2, MD_AssetSourceURL)) by congruence.
      destruct (IsEmpty EndingValue).
      * apply delete_delete.
      * by apply insert_insert_ne.
    + rewrite !lookup_insert_ne by done. by apply insert_insert_ne.
  - rewrite !WriteAssetSource_DirtyPackages.
    by rewrite !(assoc_L (∪)), (comm_L (∪) {[Package1]}).
  - by rewrite !WriteAssetSource_AssetRegistry.
Qed.

Lemma SetAssetSource_step_idem EndingValue W WeakPtr :
  SetAssetSource_step EndingValue (SetAssetSource_step EndingValue W WeakPtr) WeakPtr
  = SetAssetSource_step EndingValue W WeakPtr.
Proof.
  rewrite (SetAssetSource_step_write _ (SetAssetSource_step _ _ _)).
  rewrite SetAssetSource_step_GetOutermost, SetAssetSource_step_write.
  destruct (GetOutermost W WeakPtr) as [Package|]; [|done].
  apply WriteAssetSource_idem.
Qed.

Lemma SetAssetSource_step_comm EndingValue W WeakPtr1 WeakPtr2 :
  SetAssetSource_step EndingValue (SetAssetSource_step EndingValue W WeakPtr2) WeakPtr1
  = SetAssetSource_step EndingValue (SetAssetSource_step EndingValue W WeakPtr1) WeakPtr2.
Proof.
  rewrite (SetAssetSource_step_write _ (SetAssetSource_step _ _ WeakPtr2)).
  rewrite (SetAssetSource_step_write _ (SetAssetSource_step _ _ WeakPtr1)).
  rewrite !SetAssetSource_step_GetOutermost, !SetAssetSource_step_write.
  destruct (GetOutermost W WeakPtr1) as [Package1|],
           (GetOutermost W WeakPtr2) as [Package2|]; try done.
  apply WriteAssetSource_comm.
Qed.

Lemma SetAssetSourceTransaction_cons WeakPtr WeakObjects EndingValue W :
  SetAssetSourceTransaction (WeakPtr :: WeakObjects) EndingValue W =
  SetAssetSourceTransaction WeakObjects EndingValue
    (SetAssetSource_step EndingValue W WeakPtr).
Proof. done. Qed.

(** A write moves in front of the loop. *)
Lemma SetAssetSourceTransaction_step WeakObjects EndingValue W WeakPtr :
  SetAssetSource_step EndingValue
    (SetAssetSourceTransaction WeakObjects EndingValue W) WeakPtr
  = SetAssetSourceTransaction WeakObjects EndingValue
      (SetAssetSource_step EndingValue W WeakPtr).
Proof.
  revert W. induction WeakObjects as [|WeakPtr' WeakObjects IH]; intros W; [done|].
  rewrite !SetAssetSourceTransaction_cons.
  by rewrite IH, SetAssetSource_step_comm.
Qed.

Lemma SetAssetSourceTransaction_idem WeakObjects EndingValue W :
  SetAssetSourceTransaction WeakObjects EndingValue
    (SetAssetSourceTransaction WeakObjects EndingValue W)
  = SetAssetSourceTransaction WeakObjects EndingValue W.
Proof.
  revert W. induction WeakObjects as [|WeakPtr WeakObjects IH]; intros W; [done|].
  rewrite !SetAssetSourceTransaction_cons.
  by rewrite SetAssetSourceTransaction_step, SetAssetSource_step_idem, IH.
Qed.

(** C6: the transaction (SetAnnotation) done twice with the same value leaves
    the state that doing it once leaves, and so does the handler called twice
    with the same text. *)
Theorem SetAnnotation_idempotent WeakObjects NewValue Start TextCommitType W :
  SetAssetSourceTransaction WeakObjects (CommittedText NewValue)
    (SetAssetSourceTransaction WeakObjects (CommittedText NewValue) W)
  = SetAssetSourceTransaction WeakObjects (CommittedText NewValue) W ∧
  SetLicenseURLAction WeakObjects Start (CommittedText NewValue) TextCommitType
    (SetLicenseURLAction WeakObjects Start (CommittedText NewValue) TextCommitType W)
  = SetLicenseURLAction WeakObjects Start (CommittedText NewValue) TextCommitType W.
Proof.
  split; [apply SetAssetSourceTransaction_idem|].
  unfold SetLicenseURLAction.
  destruct (ETextCommit_ne TextCommitType OnCleared
            && FString_ne (CommittedText NewValue) Start); [|done].
  apply SetAssetSourceTransaction_idem.
Qed.

(** *** The starting text of the edit box *)

Lemma StartingValue_multiple W SelectedObjects A B U V :
  A ∈ SelectedObjects → B ∈ SelectedObjects →
  StoredURL W A = Some U → StoredURL W B = Some V → FString_eq U V = false →
  StartingValue (ScanSelectedObjects W SelectedObjects) = "[multiple values]".
Proof.
  intros HA HB HU HV Hne.
  destruct (ScanSelectedObjects_invariant W SelectedObjects) as [H1 H2].
  cbn zeta in H1, H2. unfold StartingValue.
  rewrite (H2 _ _ HA HU).
  destruct (IsEmpty (SharedLicenseAssetID (ScanSelectedObjects W SelectedObjects)))
    eqn:E; [done|].
  pose proof (H1 eq_refl _ _ HA HU) as EU.
  pose proof (H1 eq_refl _ _ HB HV) as EV.
  rewrite FString_eq_sym in EV.
  by rewrite (FString_eq_trans _ _ _ EU EV) in Hne.
Qed.

(** C9, as stated, fails: the two assets of [World_case] store URLs that
    differ, in the case of one letter, and the edit box starts with the
    first of them. *)
Lemma MultipleValues_exact_fails : ¬ MultipleValues_exact.
Proof.
  intros H. destruct (H World_case [1; 2]%positive) as [Hstart _].
  assert (StartingValue (ScanSelectedObjects World_case [1; 2]%positive)
          = "[multiple values]") as E.
  { apply Hstart. exists 1%positive, 2%positive, "http://X", "http://x".
    repeat split; try (by vm_compute).
    - by left.
    - by right; left. }
  vm_compute in E. discriminate.
Qed.

(** C9 (amended): when two selected assets store URLs that [operator==]
    tells apart (they differ beyond the case of ASCII letters), the edit box
    starts with "[multiple values]".  A commit whose text equals the starting
    text under [operator==], or a cleared commit, writes nothing: the state,
    and with it every annotation, stays as it is.  So the URL
    "[multiple values]" cannot be set on such a selection. *)
Theorem SetLicenseURLAction_starting_text W SelectedObjects :
  let Start := StartingValue (ScanSelectedObjects W SelectedObjects) in
  ((∃ A B U V, A ∈ SelectedObjects ∧ B ∈ SelectedObjects ∧
               StoredURL W A = Some U ∧ StoredURL W B = Some V ∧
               FString_eq U V = false) →
   Start = "[multiple values]" ∧
   ∀ WeakObjects TextCommitType W',
     SetLicenseURLAction WeakObjects Start "[multiple values]" TextCommitType W' = W') ∧
  (∀ WeakObjects Val TextCommitType W',
     FString_eq Val Start = true ∨ TextCommitType = OnCleared →
     SetLicenseURLAction WeakObjects Start Val TextCommitType W' = W'
     ∧ ∀ Obj, Annotation
                (SetLicenseURLAction WeakObjects Start Val TextCommitType W') Obj
              = Annotation W' Obj).
Proof.
  cbn zeta. split.
  - intros (A & B & U & V & HA & HB & HU & HV & Hne).
    rewrite (StartingValue_multiple W SelectedObjects A B U V) by done.
    split; [done|]. intros WeakObjects T W'.
    apply SetLicenseURLAction_unchanged. by left.
  - intros WeakObjects Val T W' H.
    by rewrite SetLicenseURLAction_unchanged.
Qed.

Lemma SetLicenseURLAction_starting_text_witness :
  StartingValue (ScanSelectedObjects World_xxy [1; 2; 3]%positive)
  = "[multiple values]" ∧
  SetLicenseURLAction [1; 2; 3]%positive
    (StartingValue (ScanSelectedObjects World_xxy [1; 2; 3]%positive))
    "[Multiple Values]" OnEnter World_xxy = World_xxy.
Proof.
  destruct (SetLicenseURLAction_starting_text World_xxy [1; 2; 3]%positive)
    as [H1 H2].
  split.
  - apply H1. exists 1%positive, 3%positive, "http://x", "http://y".
    repeat split; try (by vm_compute).
    + by left.
    + by right; right; left.
  - apply H2. left. by vm_compute.
Defined.

(** *** Equality under [operator==] is equality of the lower-cased strings *)

Lemma CaseKey_bounded C : (CaseKey C < 256)%N.
Proof.
  unfold CaseKey, ToUnsigned, LowerAscii.
  pose proof (N_ascii_bounded C) as HB.
  destruct ((65 <=? N_of_ascii C) && (N_of_ascii C <=? 90))%N eqn:E; [|done].
  apply andb_true_iff in E as [_ E]. apply N.leb_le in E. lia.
Qed.

Lemma CaseKey_ascii_inj C1 C2 :
  ascii_of_N (CaseKey C1) = ascii_of_N (CaseKey C2) → CaseKey C1 = CaseKey C2.
Proof.
  intros H. rewrite <- (N_ascii_embedding (CaseKey C1)) by apply CaseKey_bounded.
  rewrite <- (N_ascii_embedding (CaseKey C2)) by apply CaseKey_bounded.
  by rewrite H.
Qed.

Lemma FString_eq_ToLower S1 S2 :
  FString_eq S1 S2 = true ↔ ToLower S1 = ToLower S2.
Proof.
  rewrite FString_eq_Stricmp. revert S2.
  induction S1 as [|C1 S1 IH]; intros [|C2 S2]; cbn [ToLower]; try done.
  rewrite Stricmp_cons.
  destruct (N.compare_spec (CaseKey C1) (CaseKey C2)) as [E|L|G].
  - rewrite IH, E. split; [by intros ->|]. by intros [= ->].
  - split; [done|]. intros [= H%CaseKey_ascii_inj _]. lia.
  - split; [done|]. intros [= H%CaseKey_ascii_inj _]. lia.
Qed.

(** *** [TSet<FString>] *)

Lemma TSet_Contains_true Set_ Element :
  TSet_Contains Set_ Element = true ↔
  ∃ X, X ∈ Set_ ∧ FString_eq X Element = true.
Proof.
  unfold TSet_Contains. rewrite existsb_exists.
  split; intros (X & HX & ?); exists X; split; try done; by apply list_elem_of_In.
Qed.

Lemma TSet_Add_elem Set_ Element X :
  X ∈ TSet_Add Set_ Element → X = Element ∨ X ∈ Set_.
Proof.
  induction Set_ as [|Y Rest IH]; cbn [TSet_Add].
  { intros ->%list_elem_of_singleton. by left. }
  destruct (FString_eq Y Element).
  - intros [->|?]%elem_of_cons; [by left|]. right. by right.
  - intros [->|[?|?]%IH]%elem_of_cons; [right; by left|by left|right; by right].
Qed.

Lemma TSet_Add_new Set_ Element : Element ∈ TSet_Add Set_ Element.
Proof.
  induction Set_ as [|Y Rest IH]; cbn [TSet_Add]; [by left|].
  destruct (FString_eq Y Element); [by left|by right].
Qed.

Lemma TSet_Add_covers Set_ Element X :
  X ∈ Set_ → ∃ Y, Y ∈ TSet_Add Set_ Element ∧ FString_eq Y X = true.
Proof.
  induction Set_ as [|Z Rest IH]; cbn [TSet_Add].
  { intros H. by apply elem_of_nil in H. }
  intros [->|Hin]%elem_of_cons.
  - destruct (FString_eq Z Element) eqn:E.
    + exists Element. split; [by left|]. by rewrite FString_eq_sym.
    + exists Z. split; [by left|apply FString_eq_refl].
  - destruct (FString_eq Z Element).
    + exists X. split; [by right|apply FString_eq_refl].
    + destruct (IH Hin) as (Y & ? & ?). exists Y. split; [by right|done].
Qed.

Lemma TSet_Add_distinct Set_ Element :
  KeysDistinct Set_ → KeysDistinct (TSet_Add Set_ Element).
Proof.
  induction Set_ as [|Y Rest IH]; cbn [TSet_Add KeysDistinct]; [done|].
  intros [HY Hd]. destruct (FString_eq Y Element) eqn:E; cbn [KeysDistinct].
  - split; [|done]. eapply Forall_impl; [exact HY|]. cbn.
    intros K HK. by rewrite <- (FString_eq_compat Y Element K E).
  - split; [|by apply IH]. rewrite Forall_forall in *.
    intros K [->|?]%TSet_Add_elem; [done|by apply HY].
Qed.

Lemma KeysDistinct_once Keys URL :
  KeysDistinct Keys → (∃ X, X ∈ Keys ∧ FString_eq X URL = true) →
  length (List.filter (fun Y => FString_eq Y URL) Keys) = 1%nat.
Proof.
  induction Keys as [|K Rest IH]; cbn [KeysDistinct List.filter].
  { intros _ (X & H & _). by apply elem_of_nil in H. }
  intros [HK Hd] (X & HX & EX).
  destruct (FString_eq K URL) eqn:EK.
  - cbn [length]. f_equal. apply length_zero_iff_nil.
    destruct (List.filter (fun Y => FString_eq Y URL) Rest) as [|Z Zs] eqn:EF; [done|].
    exfalso.
    assert (In Z (List.filter (fun Y => FString_eq Y URL) Rest)) as HZ
      by (rewrite EF; by left).
    apply filter_In in HZ as [HZ EZ].
    rewrite Forall_forall in HK. specialize (HK Z ltac:(by apply list_elem_of_In)).
    rewrite (FString_eq_compat K URL Z EK), FString_eq_sym in HK. congruence.
  - apply IH; [done|]. exists X. split; [|done].
    apply elem_of_cons in HX as [->|?]; [congruence|done].
Qed.

(** *** The URLs of the selected licenses *)

Lemma CollectAssetSourceURLs_snoc W WeakObjects WeakPtr :
  CollectAssetSourceURLs W (WeakObjects ++ [WeakPtr]) =
  CollectAssetSourceURLs_step W (CollectAssetSourceURLs W WeakObjects) WeakPtr.
Proof. unfold CollectAssetSourceURLs. by rewrite fold_left_app. Qed.

Lemma CollectAssetSourceURLs_spec W WeakObjects :
  KeysDistinct (CollectAssetSourceURLs W WeakObjects) ∧
  (∀ URL, URL ∈ CollectAssetSourceURLs W WeakObjects →
     URL ≠ "" ∧
     ∃ WeakPtr, WeakPtr ∈ WeakObjects ∧ SelectedLicenseURL W WeakPtr = Some URL) ∧
  (∀ WeakPtr URL, WeakPtr ∈ WeakObjects →
     SelectedLicenseURL W WeakPtr = Some URL → URL ≠ "" →
     ∃ X, X ∈ CollectAssetSourceURLs W WeakObjects ∧ FString_eq X URL = true).
Proof.
  induction WeakObjects as [|WeakPtr WeakObjects IH] using rev_ind.
  { cbn. split; [done|]. split.
    - intros ? H. by apply elem_of_nil in H.
    - intros ?? H. by apply elem_of_nil in H. }
  destruct IH as (IHd & IHfrom & IHto).
  rewrite CollectAssetSourceURLs_snoc. unfold CollectAssetSourceURLs_step.
  assert (∀ (P : UObject → Prop),
            (∃ WeakPtr', WeakPtr' ∈ WeakObjects ∧ P WeakPtr') →
            ∃ WeakPtr', WeakPtr' ∈ (WeakObjects ++ [WeakPtr])%list ∧ P WeakPtr')
    as Hweaken.
  { intros P (WeakPtr' & ? & ?). exists WeakPtr'. split; [|done].
    apply elem_of_app. by left. }
  assert (SelectedLicenseURL W WeakPtr
          = AssetSourceURL <$> Cast_UJamAssetLicense W WeakPtr) as ES by done.
  destruct (Cast_UJamAssetLicense W WeakPtr) as [[URL0]|];
    cbn [AssetSourceURL fmap option_fmap option_map] in *.
  - destruct (IsEmpty URL0) eqn:EE; cbn [negb].
    + split; [done|]. split.
      * intros URL Hin. destruct (IHfrom URL Hin) as [? ?]. split; [done|].
        by apply Hweaken.
      * intros WeakPtr' URL [Hin| ->%list_elem_of_singleton]%elem_of_app HC Hne;
          [by eapply IHto|].
        rewrite ES in HC. injection HC as ->. by apply IsEmpty_false in Hne; congruence.
    + split; [by apply TSet_Add_distinct|]. split.
      * intros URL [->|Hin]%TSet_Add_elem.
        -- split; [by apply IsEmpty_false|]. exists WeakPtr. split; [|done].
           apply elem_of_app. right. by left.
        -- destruct (IHfrom URL Hin) as [? ?]. split; [done|]. by apply Hweaken.
      * intros WeakPtr' URL [Hin| ->%list_elem_of_singleton]%elem_of_app HC Hne.
        -- destruct (IHto _ _ Hin HC Hne) as (X & HX & EX).
           destruct (TSet_Add_covers _ URL0 _ HX) as (Y & HY & EY).
           exists Y. split; [done|]. by eapply FString_eq_trans.
        -- rewrite ES in HC. injection HC as ->.
           exists URL. split; [apply TSet_Add_new|apply FString_eq_refl].
  - split; [done|]. split.
    + intros URL Hin. destruct (IHfrom URL Hin) as [? ?]. split; [done|].
      by apply Hweaken.
    + intros WeakPtr' URL [Hin| ->%list_elem_of_singleton]%elem_of_app HC Hne;
        [by eapply IHto|congruence].
Qed.

Lemma FindAssetsBySharedURL_elem W AssetSourceURLs AssetData :
  AssetData ∈ FindAssetsBySharedURL W AssetSourceURLs ↔
  AssetData ∈ AssetRegistry W ∧
  ∃ TestURL, GetTagValue AssetData MD_AssetSourceURL = Some TestURL ∧
             TSet_Contains AssetSourceURLs TestURL = true.
Proof.
  unfold FindAssetsBySharedURL, MatchingAssets, GetAssetsByTags, GetTagValue.
  rewrite !list_elem_of_In, !filter_In, bool_decide_eq_true.
  destruct (TagsAndValues AssetData !! MD_AssetSourceURL) as [TestURL|].
  - split.
    + intros [[? _] ?]. eauto.
    + intros [? (? & [= <-] & ?)]. eauto.
  - split.
    + by intros [_ ?].
    + by intros [_ (? & ? & _)].
Qed.

(** C7, as stated, fails: the registry of [World_licenses] holds an asset
    tagged "HTTP://X", which is returned for the set that holds "http://x". *)
Lemma FindAssetsBySharedURL_exact_fails : ¬ FindAssetsBySharedURL_exact.
Proof.
  intros H.
  destruct (proj1 (H World_licenses ["http://x"]
                     {| ObjectPath := "/Game/Rock";
                        TagsAndValues := {[ MD_AssetSourceURL := "HTTP://X" ]} |}))
    as (_ & TestURL & HT & Hin).
  { apply FindAssetsBySharedURL_elem. split; [by left|].
    exists "HTTP://X". split; by vm_compute. }
  vm_compute in HT. injection HT as <-.
  apply list_elem_of_singleton in Hin. discriminate.
Qed.

(** C7 (amended): the assets returned for a set of URLs are the assets of the
    registry whose source-URL tag is equal to a URL of the set under the
    engine's [operator==]: the two strings are the same once their ASCII
    letters are in lower case.  Nothing else is unified (a trailing slash or
    another scheme make another URL).  For the action of the menu, the set
    is that of the URLs, not empty, of the selected licenses. *)
Theorem FindAssetsBySharedURL_ignoring_case W AssetSourceURLs AssetData :
  (AssetData ∈ FindAssetsBySharedURL W AssetSourceURLs ↔
   AssetData ∈ AssetRegistry W ∧
   ∃ TestURL, GetTagValue AssetData MD_AssetSourceURL = Some TestURL ∧
     ∃ URL, URL ∈ AssetSourceURLs ∧ ToLower URL = ToLower TestURL) ∧
  (∀ WeakObjects,
     AssetData ∈ MatchingAssetList W WeakObjects ↔
     AssetData ∈ AssetRegistry W ∧
     ∃ TestURL, GetTagValue AssetData MD_AssetSourceURL = Some TestURL ∧
       ∃ WeakPtr URL, WeakPtr ∈ WeakObjects ∧
         SelectedLicenseURL W WeakPtr = Some URL ∧ URL ≠ "" ∧
         ToLower URL = ToLower TestURL).
Proof.
  assert (∀ URLs,
            AssetData ∈ FindAssetsBySharedURL W URLs ↔
            AssetData ∈ AssetRegistry W ∧
            ∃ TestURL, GetTagValue AssetData MD_AssetSourceURL = Some TestURL ∧
              ∃ URL, URL ∈ URLs ∧ ToLower URL = ToLower TestURL) as Hfind.
  { intros URLs. rewrite FindAssetsBySharedURL_elem.
    split; intros (? & TestURL & ? & HC); (split; [done|]); exists TestURL;
      (split; [done|]).
    - apply TSet_Contains_true in HC as (X & ? & ?%FString_eq_ToLower). eauto.
    - apply TSet_Contains_true. destruct HC as (X & ? & ?%FString_eq_ToLower). eauto. }
  split; [apply Hfind|].
  intros WeakObjects. unfold MatchingAssetList. rewrite Hfind.
  destruct (CollectAssetSourceURLs_spec W WeakObjects) as (_ & Hfrom & Hto).
  split; intros (? & TestURL & ? & H); (split; [done|]); exists TestURL;
    (split; [done|]).
  - destruct H as (URL & Hin & ?). destruct (Hfrom URL Hin) as (? & WeakPtr & ? & ?).
    exists WeakPtr, URL. eauto.
  - destruct H as (WeakPtr & URL & Hin & HC & Hne & EL).
    destruct (Hto _ _ Hin HC Hne) as (X & ? & EX%FString_eq_ToLower).
    exists X. split; [done|]. congruence.
Qed.

Lemma FindAssetsBySharedURL_ignoring_case_witness :
  SelectRelatedAssetsAction World_licenses [1; 2; 3; 4]%positive
  = Some [ {| ObjectPath := "/Game/Rock";
              TagsAndValues := {[ MD_AssetSourceURL := "HTTP://X" ]} |} ] ∧
  {| ObjectPath := "/Game/Rock";
     TagsAndValues := {[ MD_AssetSourceURL := "HTTP://X" ]} |}
  ∈ FindAssetsBySharedURL World_licenses ["http://x"].
Proof.
  split; [by vm_compute|].
  apply (FindAssetsBySharedURL_ignoring_case World_licenses ["http://x"]).
  split; [by left|]. exists "HTTP://X". split; [by vm_compute|].
  exists "http://x". split; [by left|by vm_compute].
Defined.

(** C10, as stated, fails: two selected licenses have the URLs "http://X"
    and "http://x"; the set holds one element for both, and "http://X" is
    not launched. *)
Lemma ViewAssetSource_exact_fails : ¬ ViewAssetSource_exact.
Proof.
  intros H.
  specialize (H World_licenses [1; 2; 3; 4]%positive 1%positive "http://X"
                ltac:(by left) ltac:(by vm_compute) ltac:(done)).
  vm_compute in H. discriminate.
Qed.

(** C10 (amended): the URLs launched are URLs, not empty, of selected
    licenses (an object that is not a license, or a license whose URL is
    empty, adds none); no two of them are equal under [operator==]; and for
    every selected license with a URL that is not empty exactly one launched
    URL is equal to it under [operator==].  So several licenses that share a
    URL, or whose URLs differ in the case of ASCII letters only, give one
    launch. *)
Theorem ViewAssetSource_once_ignoring_case W WeakObjects :
  let Launched := ViewAssetSourceAction W WeakObjects in
  (∀ URL, URL ∈ Launched →
     URL ≠ "" ∧
     ∃ WeakPtr, WeakPtr ∈ WeakObjects ∧ SelectedLicenseURL W WeakPtr = Some URL) ∧
  KeysDistinct Launched ∧
  (∀ WeakPtr URL, WeakPtr ∈ WeakObjects →
     SelectedLicenseURL W WeakPtr = Some URL → URL ≠ "" →
     length (List.filter (fun X => FString_eq X URL) Launched) = 1%nat).
Proof.
  cbn zeta. unfold ViewAssetSourceAction.
  destruct (CollectAssetSourceURLs_spec W WeakObjects) as (Hd & Hfrom & Hto).
  split; [done|]. split; [done|].
  intros WeakPtr URL Hin HC Hne. apply KeysDistinct_once; [done|]. eauto.
Qed.

Lemma ViewAssetSource_once_ignoring_case_witness :
  length (List.filter (fun X => FString_eq X "http://X")
            (ViewAssetSourceAction World_licenses [1; 2; 3; 4]%positive)) = 1%nat.
Proof.
  apply (ViewAssetSource_once_ignoring_case World_licenses [1; 2; 3; 4]%positive)
    with (WeakPtr := 1%positive).
  - by left.
  - by vm_compute.
  - done.
Defined.

(** [operator<] is the code-unit order of the lower-cased strings. *)
Lemma Stricmp_ToLower S1 S2 : Stricmp S1 S2 = Strcmp (ToLower S1) (ToLower S2).
Proof.
  revert S2. induction S1 as [|C1 S1 IH]; intros [|C2 S2]; try done.
  rewrite Stricmp_cons. cbn [ToLower Strcmp]. unfold ToUnsigned at 1 2.
  rewrite !N_ascii_embedding by apply CaseKey_bounded.
  by rewrite IH.
Qed.

(** *** The examples of the specification *)

Example spec_example_three_assets :
  Summarize World_xxy [1; 2; 3]%positive = ([("http://x", 2); ("http://y", 1)], 0) ∧
  RankedList (Summarize World_xxy [1; 2; 3]%positive).1
    = [("http://x", 2); ("http://y", 1)] ∧
  SharedValue World_xxy [1; 2; 3]%positive = None.
Proof. repeat split; by vm_compute. Qed.

Example spec_example_no_URL :
  Summarize World_unset_both [1; 2]%positive = ([], 2) ∧
  SharedValue World_unset_both [1; 2]%positive = None.
Proof. repeat split; by vm_compute. Qed.

Example trailing_slash_and_scheme_are_kept :
  FString_eq "http://x/" "http://x" = false ∧
  FString_eq "https://x" "http://x" = false ∧
  FString_eq "HTTP://X" "http://x" = true.
Proof. repeat split; by vm_compute. Qed.

(** ** The section of the menu and the submenu agree *)

(** *** The keys of the tally, whatever the length of the selection *)

Lemma Summarize_keys_snoc W Objs Obj :
  GenerateKeyArray (Summarize W (Objs ++ [Obj])).1 =
  (GenerateKeyArray (Summarize W Objs).1 ++
   match StoredURL W Obj with
   | Some URL =>
       match TMap_Find (Summarize W Objs).1 URL with
       | Some _ => []
       | None => [URL]
       end
   | None => []
   end)%list.
Proof.
  rewrite Summarize_snoc.
  destruct (Summarize W Objs) as [Map Num]. cbn [fst].
  rewrite CollectLicenseURLs_step_stored.
  destruct (StoredURL W Obj) as [URL|]; cbn [fst].
  - apply GenerateKeyArray_Increment.
  - rewrite app_nil_r. by destruct (CountedWithNoURL W Obj).
Qed.

Lemma Summarize_keys W Objs :
  (∀ K, K ∈ GenerateKeyArray (Summarize W Objs).1 →
        ∃ Obj, Obj ∈ Objs ∧ StoredURL W Obj = Some K) ∧
  (∀ Obj URL, Obj ∈ Objs → StoredURL W Obj = Some URL →
        ∃ K, K ∈ GenerateKeyArray (Summarize W Objs).1 ∧ FString_eq K URL = true).
Proof.
  induction Objs as [|Obj Objs [IH1 IH2]] using rev_ind.
  { split.
    - intros K H. by apply elem_of_nil in H.
    - intros Obj URL H. by apply elem_of_nil in H. }
  rewrite Summarize_keys_snoc. split.
  - intros K [Hin|Hin]%elem_of_app.
    + destruct (IH1 K Hin) as (Obj' & ? & ?). exists Obj'. split; [|done].
      apply elem_of_app. by left.
    + destruct (StoredURL W Obj) as [URL|] eqn:EU; [|by apply elem_of_nil in Hin].
      destruct (TMap_Find (Summarize W Objs).1 URL); [by apply elem_of_nil in Hin|].
      apply list_elem_of_singleton in Hin as ->. exists Obj. split; [|done].
      apply elem_of_app. right. by left.
  - intros Obj' URL [Hin| ->%list_elem_of_singleton]%elem_of_app HU.
    + destruct (IH2 _ _ Hin HU) as (K & ? & ?). exists K. split; [|done].
      apply elem_of_app. by left.
    + rewrite HU. destruct (TMap_Find (Summarize W Objs).1 URL) as [C|] eqn:EF.
      * apply TMap_Find_Some_key in EF as (K & ? & ?). exists K. split; [|done].
        apply elem_of_app. by left.
      * exists URL. split; [|apply FString_eq_refl].
        apply elem_of_app. right. by left.
Qed.

Lemma GenerateKeyArray_nil (Map : TMap_FString_int32) :
  GenerateKeyArray Map = [] ↔ Map = [].
Proof. unfold GenerateKeyArray. by destruct Map. Qed.

(** [bAnyHaveLicense] tells that some asset stores a URL. *)
Lemma bAnyHaveLicense_stored W Objs :
  bAnyHaveLicense (ScanSelectedObjects W Objs) = true ↔
  ∃ Obj, Obj ∈ Objs ∧ is_Some (StoredURL W Obj).
Proof.
  split.
  - induction Objs as [|Obj Objs IH] using rev_ind; [done|].
    rewrite ScanSelectedObjects_snoc, LicenseScan_step_view.
    assert ((∃ Obj', Obj' ∈ Objs ∧ is_Some (StoredURL W Obj')) →
            ∃ Obj', Obj' ∈ (Objs ++ [Obj])%list ∧ is_Some (StoredURL W Obj')) as Hw.
    { intros (Obj' & ? & ?). exists Obj'. split; [|done]. apply elem_of_app. by left. }
    pose proof (StoredURL_view W Obj) as EU.
    destruct (ViewOf W Obj) as [| |V]; cbn; [auto|auto|].
    destruct (IsEmpty V); cbn; [auto|].
    intros _. exists Obj. split; [|by rewrite EU].
    apply elem_of_app. right. by left.
  - intros (Obj & Hin & [URL HU]).
    by apply (ScanSelectedObjects_invariant W Objs) with (Obj := Obj) (URL := URL).
Qed.

Lemma SharedLicenseAssetID_have W Objs :
  IsEmpty (SharedLicenseAssetID (ScanSelectedObjects W Objs)) = false →
  bAnyHaveLicense (ScanSelectedObjects W Objs) = true.
Proof.
  intros HS. apply bAnyHaveLicense_stored.
  destruct (proj1 (SharedValue_characterised W Objs
                     (SharedLicenseAssetID (ScanSelectedObjects W Objs))))
    as (Skipped & First & Rest & -> & _ & HF & _).
  { by apply SharedValue_scan. }
  exists First. split; [|by rewrite HF].
  apply elem_of_app. right. by left.
Qed.

Lemma AddAssetSourceOptions_no_URL W SelectedObjects :
  AddAssetSourceOptions W SelectedObjects = [LicenseURLWidget ""] ↔
  ¬ ∃ Obj, Obj ∈ SelectedObjects ∧ is_Some (StoredURL W Obj).
Proof.
  rewrite <- bAnyHaveLicense_stored.
  unfold AddAssetSourceOptions, AddViewEntry, StartingValue.
  pose proof (SharedLicenseAssetID_have W SelectedObjects) as HS.
  destruct (IsEmpty (SharedLicenseAssetID (ScanSelectedObjects W SelectedObjects)))
    eqn:EE; cbn [negb].
  - destruct (bAnyHaveLicense (ScanSelectedObjects W SelectedObjects)); cbn.
    + split; [done|]. by intros [].
    + split; [done|]. intros _.
      by destruct (SharedLicenseAssetID (ScanSelectedObjects W SelectedObjects)).
  - rewrite (HS eq_refl). split; [done|]. by intros [].
Qed.

Lemma Summarize_no_URL W SelectedObjects :
  (Summarize W SelectedObjects).1 = [] ↔
  ¬ ∃ Obj, Obj ∈ SelectedObjects ∧ is_Some (StoredURL W Obj).
Proof.
  rewrite <- GenerateKeyArray_nil.
  destruct (Summarize_keys W SelectedObjects) as [H1 H2]. split.
  - intros E (Obj & Hin & [URL HU]).
    destruct (H2 _ _ Hin HU) as (K & HK & _). rewrite E in HK.
    by apply elem_of_nil in HK.
  - intros Hno.
    destruct (GenerateKeyArray (Summarize W SelectedObjects).1) as [|K Keys]; [done|].
    destruct Hno. destruct (H1 K ltac:(by left)) as (Obj & ? & HU).
    exists Obj. split; [done|]. by rewrite HU.
Qed.

(** X1: the section gets nothing but the edit box, with an empty text,
    exactly when no selected asset stores a URL, and exactly then the tally
    of the submenu is empty. *)
Theorem no_view_entry_iff_tally_empty W SelectedObjects :
  (AddAssetSourceOptions W SelectedObjects = [LicenseURLWidget ""] ↔
   ¬ ∃ Obj, Obj ∈ SelectedObjects ∧ is_Some (StoredURL W Obj)) ∧
  ((Summarize W SelectedObjects).1 = [] ↔
   ¬ ∃ Obj, Obj ∈ SelectedObjects ∧ is_Some (StoredURL W Obj)).
Proof. split; [apply AddAssetSourceOptions_no_URL|apply Summarize_no_URL]. Qed.

Lemma CollectLicenseURLs_pass W Skipped Acc :
  (∀ Obj, Obj ∈ Skipped → ViewOf W Obj = NoPackage) →
  fold_left (CollectLicenseURLs_step W) Skipped Acc = Acc.
Proof.
  induction Skipped as [|Obj Skipped IH]; intros Hskip; [done|].
  cbn [fold_left]. destruct Acc as [Map Num].
  rewrite CollectLicenseURLs_step_stored, StoredURL_view.
  unfold CountedWithNoURL. rewrite (Hskip Obj) by by left.
  apply IH. intros Obj' ?. apply Hskip. by right.
Qed.

Lemma CollectLicenseURLs_keep W URL Rest Acc :
  GenerateKeyArray Acc.1 = [URL] →
  (∀ Obj, Obj ∈ Rest → KeepsShared W URL Obj) →
  GenerateKeyArray (fold_left (CollectLicenseURLs_step W) Rest Acc).1 = [URL].
Proof.
  revert Acc. induction Rest as [|Obj Rest IH]; intros [Map Num] HK Hkeep; [done|].
  cbn [fold_left]. apply IH; [|intros Obj' ?; apply Hkeep; by right].
  rewrite CollectLicenseURLs_step_stored, StoredURL_view.
  specialize (Hkeep Obj ltac:(by left)). unfold KeepsShared, CountedWithNoURL in *.
  cbn [fst] in HK.
  destruct (ViewOf W Obj) as [| |V]; [done|done|].
  destruct Hkeep as [-> EV]. cbn [fst].
  rewrite GenerateKeyArray_Increment, HK.
  destruct Map as [|[K C] [|? ?]]; try done. cbn in HK. injection HK as ->.
  cbn [TMap_Find]. by rewrite FString_eq_sym, EV.
Qed.

Lemma AddAssetSourceOptions_shared W SelectedObjects URL :
  SharedValue W SelectedObjects = Some URL →
  AddAssetSourceOptions W SelectedObjects
    = [JamLicenseAction_OpenLicenseURL URL; LicenseURLWidget URL].
Proof.
  intros [HS HE]%SharedValue_scan.
  unfold AddAssetSourceOptions, AddViewEntry, StartingValue.
  rewrite HS, HE. cbn. by rewrite andb_false_r.
Qed.

Lemma Summarize_keys_shared W SelectedObjects URL :
  SharedValue W SelectedObjects = Some URL →
  GenerateKeyArray (Summarize W SelectedObjects).1 = [URL].
Proof.
  intros (Skipped & First & Rest & -> & Hskip & HF & HR)%SharedValue_characterised.
  unfold Summarize, CollectLicenseURLs.
  rewrite fold_left_app, (CollectLicenseURLs_pass _ _ _ Hskip).
  cbn [fold_left]. apply CollectLicenseURLs_keep; [|done].
  by rewrite CollectLicenseURLs_step_stored, HF.
Qed.

(** X3: when the section gets the direct action for a URL, the edit box
    starts with that URL, and the tally of the submenu has that URL, spelled
    the same, as its only key. *)
Theorem direct_action_single_URL W SelectedObjects URL :
  SharedValue W SelectedObjects = Some URL →
  AddAssetSourceOptions W SelectedObjects
    = [JamLicenseAction_OpenLicenseURL URL; LicenseURLWidget URL] ∧
  GenerateKeyArray (Summarize W SelectedObjects).1 = [URL].
Proof.
  intros HS. split;
    [by apply AddAssetSourceOptions_shared|by apply Summarize_keys_shared].
Qed.

Lemma direct_action_single_URL_witness :
  AddAssetSourceOptions World_case [1; 2]%positive
    = [JamLicenseAction_OpenLicenseURL "http://X"; LicenseURLWidget "http://X"] ∧
  GenerateKeyArray (Summarize World_case [1; 2]%positive).1 = ["http://X"].
Proof.
  apply (direct_action_single_URL World_case [1; 2]%positive "http://X").
  by vm_compute.
Defined.

Lemma first_with {A} (P : A → Prop) `{∀ x, Decision (P x)} (l : list A) :
  (∃ x, x ∈ l ∧ P x) →
  ∃ l1 x l2, l = (l1 ++ x :: l2)%list ∧ P x ∧ ∀ y, y ∈ l1 → ¬ P y.
Proof.
  induction l as [|a l IH]; intros (x & Hin & HP); [by apply elem_of_nil in Hin|].
  destruct (decide (P a)) as [Ha|Ha].
  - exists [], a, l. split; [done|]. split; [done|].
    intros y Hy. by apply elem_of_nil in Hy.
  - apply elem_of_cons in Hin as [->|Hin]; [done|].
    destruct IH as (l1 & x' & l2 & -> & HP' & Hl1); [eauto|].
    exists (a :: l1), x', l2. split; [done|]. split; [done|].
    intros y [->|?]%elem_of_cons; eauto.
Qed.

Lemma CreateLicenseListSubmenu_length W SelectedObjects :
  length (CreateLicenseListSubmenu W (Some SelectedObjects)) =
  (length (GenerateKeyArray (Summarize W SelectedObjects).1)
   + if (Summarize W SelectedObjects).2 >? 0 then 1 else 0)%nat.
Proof.
  unfold CreateLicenseListSubmenu. fold (Summarize W SelectedObjects).
  destruct (Summarize W SelectedObjects) as [Map Num]. cbn [fst snd].
  rewrite length_app, length_fmap. f_equal.
  - unfold SortURLsByUsage, Sort.
    apply Permutation_length, merge_sort_Permutation.
  - by destruct (Num >? 0).
Qed.

(** X2: when the section gets the submenu "View Sources", the submenu has at
    least two entries: two URLs, or one URL and the placeholder for the
    assets without license. *)
Theorem view_licenses_has_two_entries W SelectedObjects :
  Z.of_nat (length SelectedObjects) ≤ INT32_MAX →
  ViewLicensesSubMenu ∈ AddAssetSourceOptions W SelectedObjects →
  (2 ≤ length (CreateLicenseListSubmenu W (Some SelectedObjects)))%nat.
Proof.
  intros Hlen Hsub.
  assert (IsEmpty (SharedLicenseAssetID (ScanSelectedObjects W SelectedObjects)) = true
          ∧ bAnyHaveLicense (ScanSelectedObjects W SelectedObjects) = true)
    as [HE Hhave].
  { revert Hsub. unfold AddAssetSourceOptions, AddViewEntry.
    destruct (IsEmpty (SharedLicenseAssetID (ScanSelectedObjects W SelectedObjects)));
      cbn [negb].
    - destruct (bAnyHaveLicense (ScanSelectedObjects W SelectedObjects)); [done|].
      cbn. intros [?|H%elem_of_nil]%elem_of_cons; done.
    - cbn. intros [?|[?|H%elem_of_nil]%elem_of_cons]%elem_of_cons; done. }
  rewrite CreateLicenseListSubmenu_length.
  destruct (Summarize_keys W SelectedObjects) as [Hfrom Hto].
  destruct (Summarize_invariant W SelectedObjects Hlen) as (HN & _).
  apply bAnyHaveLicense_stored in Hhave.
  destruct (GenerateKeyArray (Summarize W SelectedObjects).1) as [|K [|K2 Keys]] eqn:EK.
  - destruct Hhave as (Obj & Hin & [URL HU]).
    destruct (Hto _ _ Hin HU) as (K & HK & _). by apply elem_of_nil in HK.
  - cbn [length]. rewrite HN.
    destruct (List.filter (CountedWithNoURL W) SelectedObjects) as [|C Cs] eqn:EC;
      [|rewrite (proj2 (Z.gtb_gt _ 0)) by (cbn [length]; lia); lia].
    exfalso.
    assert (∀ Obj, Obj ∈ SelectedObjects → CountedWithNoURL W Obj = false) as Hnc.
    { intros Obj Hin. destruct (CountedWithNoURL W Obj) eqn:E; [|done].
      assert (In Obj (List.filter (CountedWithNoURL W) SelectedObjects)) as HIn
        by (apply filter_In; split; [by apply list_elem_of_In|done]).
      by rewrite EC in HIn. }
    destruct (first_with (fun Obj => is_Some (StoredURL W Obj)) SelectedObjects Hhave)
      as (Skipped & First & Rest & E & [URL HF] & Hskip).
    assert (SharedValue W SelectedObjects = Some URL) as HS.
    { apply SharedValue_characterised. exists Skipped, First, Rest.
      split; [done|]. split; [|split; [done|]].
      - intros Obj Hin.
        assert (Obj ∈ SelectedObjects) as Hin'
          by (rewrite E; apply elem_of_app; by left).
        specialize (Hnc _ Hin'). specialize (Hskip _ Hin).
        rewrite StoredURL_view in Hskip. unfold CountedWithNoURL in Hnc.
        destruct (ViewOf W Obj) as [| |V]; [done|done|].
        rewrite Hnc in Hskip. destruct Hskip. eauto.
      - intros Obj Hin.
        assert (Obj ∈ SelectedObjects) as Hin'
          by (rewrite E; apply elem_of_app; right; by right).
        assert (First ∈ SelectedObjects) as HinF
          by (rewrite E; apply elem_of_app; right; by left).
        specialize (Hnc _ Hin'). unfold KeepsShared.
        pose proof (StoredURL_view W Obj) as EU. unfold CountedWithNoURL in Hnc.
        destruct (ViewOf W Obj) as [| |V]; [done|done|].
        rewrite Hnc in EU. split; [done|].
        destruct (Hto _ _ Hin' EU) as (K1 & ->%list_elem_of_singleton & EK1).
        destruct (Hto _ _ HinF HF) as (K2 & ->%list_elem_of_singleton & EK2).
        rewrite FString_eq_sym in EK1. by eapply FString_eq_trans. }
    apply SharedValue_scan in HS as [<- HS]. congruence.
  - cbn [length]. lia.
Qed.

Lemma view_licenses_has_two_entries_witness :
  (2 ≤ length (CreateLicenseListSubmenu World_xxy (Some [1; 2; 3]%positive)))%nat.
Proof.
  apply (view_licenses_has_two_entries World_xxy [1; 2; 3]%positive).
  - by vm_compute.
  - vm_compute. left.
Defined.

(** *** The order of the selection *)

Lemma filter_length_Permutation {A} (f : A → bool) (l1 l2 : list A) :
  l1 ≡ₚ l2 → length (List.filter f l1) = length (List.filter f l2).
Proof.
  induction 1 as [|x l1 l2 _ IH|x y l|l1 l2 l3 _ IH1 _ IH2]; cbn [List.filter].
  - done.
  - destruct (f x); cbn [length]; by rewrite IH.
  - by destruct (f x), (f y).
  - by rewrite IH1.
Qed.

(** X4: the counts of the tally do not depend on the order of the selection:
    for two selections with the same assets, a URL is found with the same
    count in both tallies (under [operator==]; only the spelling of a key
    may follow the order), and [NumAssetsWithNoURL] is the same. *)
Theorem Summarize_counts_order_independent W SelectedObjects SelectedObjects' :
  SelectedObjects ≡ₚ SelectedObjects' →
  Z.of_nat (length SelectedObjects) ≤ INT32_MAX →
  (∀ Key, TMap_Find (Summarize W SelectedObjects).1 Key
          = TMap_Find (Summarize W SelectedObjects').1 Key) ∧
  (Summarize W SelectedObjects).2 = (Summarize W SelectedObjects').2.
Proof.
  intros HP Hlen.
  assert (Z.of_nat (length SelectedObjects') ≤ INT32_MAX) as Hlen'
    by (by rewrite <- (Permutation_length HP)).
  destruct (Summarize_invariant W SelectedObjects Hlen) as (HN & HF & _).
  destruct (Summarize_invariant W SelectedObjects' Hlen') as (HN' & HF' & _).
  split.
  - intros Key. rewrite HF, HF'. unfold UsageCount.
    by rewrite (filter_length_Permutation _ _ _ HP).
  - by rewrite HN, HN', (filter_length_Permutation _ _ _ HP).
Qed.

Lemma Summarize_counts_order_independent_witness :
  TMap_Find (Summarize World_xxy [1; 2; 3]%positive).1 "HTTP://X"
  = TMap_Find (Summarize World_xxy [3; 2; 1]%positive).1 "HTTP://X".
Proof.
  apply (Summarize_counts_order_independent World_xxy [1; 2; 3]%positive
           [3; 2; 1]%positive).
  - apply (Permutation_rev [1; 2; 3]%positive).
  - by vm_compute.
Defined.

(** ** The handler, then the menu again *)

Lemma WriteAssetSource_has_metadata EndingValue Package Asset W Q :
  is_Some (PackageMetaData (WriteAssetSource EndingValue Package Asset W) !! Q) ↔
  Q = Package ∨ is_Some (PackageMetaData W !! Q).
Proof.
  rewrite WriteAssetSource_PackageMetaData.
  destruct (decide (Q = Package)) as [->|Hne].
  - rewrite lookup_insert_eq. split; [by left|eauto].
  - rewrite lookup_insert_ne by done. split; [by right|]. by intros [?|?].
Qed.

Lemma SetAssetSourceTransaction_has_metadata WeakObjects EndingValue W Q :
  is_Some (PackageMetaData (SetAssetSourceTransaction WeakObjects EndingValue W) !! Q) ↔
  is_Some (PackageMetaData W !! Q) ∨
  ∃ Asset, Asset ∈ WeakObjects ∧ GetOutermost W Asset = Some Q.
Proof.
  induction WeakObjects as [|WeakPtr WeakObjects IH] using rev_ind.
  { split; [by left|]. intros [?|(? & H & _)]; [done|by apply elem_of_nil in H]. }
  rewrite SetAssetSourceTransaction_snoc, SetAssetSource_step_write.
  rewrite SetAssetSourceTransaction_GetOutermost.
  assert ((∃ Asset, Asset ∈ (WeakObjects ++ [WeakPtr])%list ∧ GetOutermost W Asset = Some Q) ↔
          (∃ Asset, Asset ∈ WeakObjects ∧ GetOutermost W Asset = Some Q)
          ∨ GetOutermost W WeakPtr = Some Q) as ->.
  { split.
    - intros (Asset & [?| ->%list_elem_of_singleton]%elem_of_app & ?); eauto.
    - intros [(Asset & ? & ?)|?].
      + exists Asset. split; [|done]. apply elem_of_app. by left.
      + exists WeakPtr. split; [|done]. apply elem_of_app. right. by left. }
  destruct (GetOutermost W WeakPtr) as [Package|] eqn:EP.
  - rewrite WriteAssetSource_has_metadata, IH.
    split; [intros [->|[?|?]]|intros [?|[?|[= ->]]]]; eauto.
  - rewrite IH. split; [intros [?|?]|intros [?|[?|?]]]; eauto; done.
Qed.

Lemma SetAssetSourceTransaction_StoredURL WeakObjects EndingValue W Asset :
  Asset ∈ WeakObjects → is_Some (GetOutermost W Asset) →
  StoredURL (SetAssetSourceTransaction WeakObjects EndingValue W) Asset
  = if IsEmpty EndingValue then None else Some EndingValue.
Proof.
  intros Hin HP.
  rewrite StoredURL_Annotation, SetAssetSourceTransaction_Annotation,
    bool_decide_true by done.
  destruct (IsEmpty EndingValue) eqn:E; [done|]. cbn. by rewrite E.
Qed.

Lemma SetAssetSourceTransaction_HasMetaDataStore WeakObjects EndingValue W Asset :
  Asset ∈ WeakObjects → is_Some (GetOutermost W Asset) →
  HasMetaDataStore (SetAssetSourceTransaction WeakObjects EndingValue W) Asset.
Proof.
  intros Hin [Package HP]. exists Package.
  rewrite SetAssetSourceTransaction_GetOutermost. split; [done|].
  unfold HasMetaData_GetMetaData.
  apply SetAssetSourceTransaction_has_metadata. right. eauto.
Qed.

(** The menu after a URL has been written to every asset of the selection. *)
Lemma SharedValue_after_set WeakObjects EndingValue W :
  WeakObjects ≠ [] →
  (∀ Asset, Asset ∈ WeakObjects → is_Some (GetOutermost W Asset)) →
  IsEmpty EndingValue = false →
  SharedValue (SetAssetSourceTransaction WeakObjects EndingValue W) WeakObjects
  = Some EndingValue.
Proof.
  intros Hne HP HE. apply SharedValue_characterised.
  destruct WeakObjects as [|First Rest]; [done|].
  exists [], First, Rest. split; [done|].
  split; [intros ? H; by apply elem_of_nil in H|]. split.
  - rewrite SetAssetSourceTransaction_StoredURL, HE; [done|by left|apply HP; by left].
  - intros Obj Hin. apply KeepsShared_stored.
    + apply SetAssetSourceTransaction_HasMetaDataStore; [by right|apply HP; by right].
    + exists EndingValue. split; [|apply FString_eq_refl].
      rewrite SetAssetSourceTransaction_StoredURL, HE;
        [done|by right|apply HP; by right].
Qed.

Lemma no_URL_after_clear WeakObjects EndingValue W :
  (∀ Asset, Asset ∈ WeakObjects → is_Some (GetOutermost W Asset)) →
  IsEmpty EndingValue = true →
  ¬ ∃ Obj, Obj ∈ WeakObjects ∧
           is_Some (StoredURL (SetAssetSourceTransaction WeakObjects EndingValue W) Obj).
Proof.
  intros HP HE (Obj & Hin & HS).
  rewrite SetAssetSourceTransaction_StoredURL, HE in HS by auto. by destruct HS.
Qed.

(** X5: a commit that is not a cleared one, on a selection that is not empty
    and whose assets have their packages: when the menu is opened again on
    the selection, the edit box starts with a text equal to the committed
    one under [operator==].  When the handler found the text different from
    the starting text, the edit box starts with the committed text itself,
    and the section offers the direct action for it, or no entry for viewing
    when the text is empty. *)
Theorem commit_then_menu_again W SelectedObjects Val TextCommitType :
  SelectedObjects ≠ [] →
  (∀ Obj, Obj ∈ SelectedObjects → is_Some (GetOutermost W Obj)) →
  TextCommitType ≠ OnCleared →
  let Start := StartingValue (ScanSelectedObjects W SelectedObjects) in
  let W' := SetLicenseURLAction SelectedObjects Start Val TextCommitType W in
  FString_eq (StartingValue (ScanSelectedObjects W' SelectedObjects)) Val = true ∧
  (FString_eq Val Start = false →
   AddAssetSourceOptions W' SelectedObjects =
   if IsEmpty Val then [LicenseURLWidget ""]
   else [JamLicenseAction_OpenLicenseURL Val; LicenseURLWidget Val]).
Proof.
  intros Hne HP HT. cbn zeta.
  set (Start := StartingValue (ScanSelectedObjects W SelectedObjects)).
  assert (FString_eq Val Start = false →
          AddAssetSourceOptions
            (SetLicenseURLAction SelectedObjects Start Val TextCommitType W)
            SelectedObjects =
          if IsEmpty Val then [LicenseURLWidget ""]
          else [JamLicenseAction_OpenLicenseURL Val; LicenseURLWidget Val]) as Hopt.
  { intros Hdiff. rewrite SetLicenseURLAction_commit by done.
    destruct (IsEmpty Val) eqn:EE.
    - apply AddAssetSourceOptions_no_URL. by apply no_URL_after_clear.
    - apply AddAssetSourceOptions_shared. by apply SharedValue_after_set. }
  split; [|done].
  destruct (FString_eq Val Start) eqn:Ediff.
  - rewrite SetLicenseURLAction_unchanged by (by left).
    fold Start. by rewrite FString_eq_sym.
  - specialize (Hopt eq_refl). unfold AddAssetSourceOptions in Hopt.
    destruct (IsEmpty Val) eqn:EE.
    + destruct (AddViewEntry _); cbn in Hopt; try discriminate.
      injection Hopt as ->. by destruct Val.
    + destruct (AddViewEntry _); cbn in Hopt; try discriminate.
      injection Hopt as _ ->. apply FString_eq_refl.
Qed.

Lemma commit_then_menu_again_witness :
  AddAssetSourceOptions
    (SetLicenseURLAction [1; 2; 3]%positive
       (StartingValue (ScanSelectedObjects World_xxy [1; 2; 3]%positive))
       "http://z" OnEnter World_xxy)
    [1; 2; 3]%positive
  = [JamLicenseAction_OpenLicenseURL "http://z"; LicenseURLWidget "http://z"].
Proof.
  apply (commit_then_menu_again World_xxy [1; 2; 3]%positive "http://z" OnEnter).
  - done.
  - intros Obj H. by_elements H; packaged.
  - done.
  - by vm_compute.
Defined.

Lemma filter_all_false {A} (f : A → bool) (l : list A) :
  (∀ x, x ∈ l → f x = false) → List.filter f l = [].
Proof.
  induction l as [|x l IH]; intros H; [done|]. cbn [List.filter].
  rewrite (H x) by by left. apply IH. intros y ?. apply H. by right.
Qed.

Lemma filter_all_true {A} (f : A → bool) (l : list A) :
  (∀ x, x ∈ l → f x = true) → List.filter f l = l.
Proof.
  induction l as [|x l IH]; intros H; [done|]. cbn [List.filter].
  rewrite (H x) by by left. f_equal. apply IH. intros y ?. apply H. by right.
Qed.

(** X6: after the transaction on a selection that is not empty and whose
    assets have their packages, the submenu of that selection has one entry:
    the URL written, with the number of assets of the selection, or, when
    the annotations were removed, the placeholder with that number.  The
    tally is the single pair, or empty. *)
Theorem submenu_after_transaction W SelectedObjects EndingValue :
  SelectedObjects ≠ [] →
  (∀ Obj, Obj ∈ SelectedObjects → is_Some (GetOutermost W Obj)) →
  Z.of_nat (length SelectedObjects) ≤ INT32_MAX →
  let W' := SetAssetSourceTransaction SelectedObjects EndingValue W in
  let Num := Z.of_nat (length SelectedObjects) in
  Summarize W' SelectedObjects =
    (if IsEmpty EndingValue then ([], Num) else ([(EndingValue, Num)], 0)) ∧
  CreateLicenseListSubmenu W' (Some SelectedObjects) =
    (if IsEmpty EndingValue then [AssetsWithNoLicense Num]
     else [OpenSingleLicenseURL EndingValue Num]).
Proof.
  intros Hne HP Hlen. cbn zeta.
  set (W' := SetAssetSourceTransaction SelectedObjects EndingValue W).
  assert (Summarize W' SelectedObjects =
          if IsEmpty EndingValue then ([], Z.of_nat (length SelectedObjects))
          else ([(EndingValue, Z.of_nat (length SelectedObjects))], 0)) as ES.
  { assert (∀ Obj, Obj ∈ SelectedObjects → is_Some (GetOutermost W' Obj)) as HP'.
    { intros Obj Hin. unfold W'. rewrite SetAssetSourceTransaction_GetOutermost. auto. }
    destruct (Summarize_invariant W' SelectedObjects Hlen) as (HN & HF & _).
    rewrite NoURLCount_packaged in HN by done. unfold NoURLCount in HN.
    destruct (IsEmpty EndingValue) eqn:EE.
    - pose proof (proj2 (Summarize_no_URL W' SelectedObjects)
                    (no_URL_after_clear _ _ _ HP EE)) as Hempty.
      rewrite filter_all_true in HN.
      + destruct (Summarize W' SelectedObjects) as [Map Num]. cbn in *. congruence.
      + intros Obj Hin. apply bool_decide_eq_true. unfold W'.
        rewrite SetAssetSourceTransaction_StoredURL, EE; auto.
    - pose proof (Summarize_keys_shared W' SelectedObjects EndingValue
                    (SharedValue_after_set _ _ _ Hne HP EE)) as Hkeys.
      rewrite filter_all_false in HN.
      2:{ intros Obj Hin. apply bool_decide_eq_false. unfold W'.
          rewrite SetAssetSourceTransaction_StoredURL, EE; auto. }
      specialize (HF EndingValue). unfold UsageCount in HF.
      rewrite filter_all_true in HF.
      2:{ intros Obj Hin. unfold MatchesURL, W'.
          rewrite SetAssetSourceTransaction_StoredURL, EE by auto.
          apply FString_eq_refl. }
      destruct (Summarize W' SelectedObjects) as [Map Num]. cbn [fst snd] in *.
      destruct Map as [|[K C] [|? ?]]; try done. cbn in Hkeys. injection Hkeys as ->.
      cbn [TMap_Find] in HF. rewrite FString_eq_refl in HF.
      destruct SelectedObjects as [|O Os]; [done|].
      cbn [FoundCount] in HF. injection HF as ->. by rewrite HN. }
  split; [done|].
  unfold CreateLicenseListSubmenu. fold (Summarize W' SelectedObjects). rewrite ES.
  destruct (IsEmpty EndingValue).
  - destruct SelectedObjects as [|O Os]; [done|].
    rewrite (proj2 (Z.gtb_gt _ 0)) by (cbn [length]; lia). done.
  - cbn. unfold TMap_At. cbn [TMap_Find]. by rewrite FString_eq_refl.
Qed.

Lemma submenu_after_transaction_witness :
  CreateLicenseListSubmenu
    (SetAssetSourceTransaction [1; 2; 3]%positive "http://z" World_xxy)
    (Some [1; 2; 3]%positive)
  = [OpenSingleLicenseURL "http://z" 3].
Proof.
  apply (submenu_after_transaction World_xxy [1; 2; 3]%positive "http://z").
  - done.
  - intros Obj H. by_elements H; packaged.
  - by vm_compute.
Defined.

(** *** What the transaction leaves alone *)




(** X8: the transaction marks as modified the packages of the assets of its
    sequence that are still there, whether or not their annotation changes,
    and no other package; each of these packages has a metadata object
    afterwards, also when the annotation was removed. *)
Theorem SetAssetSourceTransaction_packages WeakObjects EndingValue W Package :
  let W' := SetAssetSourceTransaction WeakObjects EndingValue W in
  (Package ∈ DirtyPackages W' ↔
   Package ∈ DirtyPackages W ∨
   ∃ Asset, Asset ∈ WeakObjects ∧ GetOutermost W Asset = Some Package) ∧
  (is_Some (PackageMetaData W' !! Package) ↔
   is_Some (PackageMetaData W !! Package) ∨
   ∃ Asset, Asset ∈ WeakObjects ∧ GetOutermost W Asset = Some Package).
Proof.
  cbn zeta. split; [|apply SetAssetSourceTransaction_has_metadata].
  induction WeakObjects as [|WeakPtr WeakObjects IH] using rev_ind.
  { split; [by left|]. intros [?|(? & H & _)]; [done|by apply elem_of_nil in H]. }
  rewrite SetAssetSourceTransaction_snoc, SetAssetSource_step_write.
  rewrite SetAssetSourceTransaction_GetOutermost.
  assert ((∃ Asset, Asset ∈ (WeakObjects ++ [WeakPtr])%list
                    ∧ GetOutermost W Asset = Some Package) ↔
          (∃ Asset, Asset ∈ WeakObjects ∧ GetOutermost W Asset = Some Package)
          ∨ GetOutermost W WeakPtr = Some Package) as ->.
  { split.
    - intros (Asset & [?| ->%list_elem_of_singleton]%elem_of_app & ?); eauto.
    - intros [(Asset & ? & ?)|?].
      + exists Asset. split; [|done]. apply elem_of_app. by left.
      + exists WeakPtr. split; [|done]. apply elem_of_app. right. by left. }
  destruct (GetOutermost W WeakPtr) as [P|] eqn:EP.
  - rewrite WriteAssetSource_DirtyPackages, elem_of_union, elem_of_singleton, IH.
    split; [intros [->|[?|?]]|intros [?|[?|[= ->]]]]; eauto.
  - rewrite IH. split; [intros [?|?]|intros [?|[?|?]]]; eauto; done.
Qed.

(** ** The two license actions *)

Lemma TSet_Contains_Collect W WeakObjects TestURL :
  TSet_Contains (CollectAssetSourceURLs W WeakObjects) TestURL = true ↔
  ∃ WeakPtr URL, WeakPtr ∈ WeakObjects ∧ SelectedLicenseURL W WeakPtr = Some URL ∧
                 URL ≠ "" ∧ FString_eq URL TestURL = true.
Proof.
  rewrite TSet_Contains_true.
  destruct (CollectAssetSourceURLs_spec W WeakObjects) as (_ & Hfrom & Hto). split.
  - intros (X & Hin & EX). destruct (Hfrom X Hin) as (Hne & WeakPtr & ? & ?).
    exists WeakPtr, X. eauto.
  - intros (WeakPtr & URL & Hin & HU & Hne & EU).
    destruct (Hto _ _ Hin HU Hne) as (X & ? & EX). exists X. split; [done|].
    by eapply FString_eq_trans.
Qed.

Lemma filter_sublist {A} (f : A → bool) (l : list A) : List.filter f l `sublist_of` l.
Proof.
  induction l as [|x l IH]; cbn [List.filter]; [done|].
  destruct (f x); [by apply sublist_skip|by apply sublist_cons].
Qed.

(** X9: "Select Associated Assets" does not depend on the order of the
    selection nor on how often an object occurs in it: two selections with
    the same objects give the same list, and the same call or none. *)
Theorem SelectRelatedAssetsAction_selection_as_set W WeakObjects WeakObjects' :
  (∀ WeakPtr, WeakPtr ∈ WeakObjects ↔ WeakPtr ∈ WeakObjects') →
  MatchingAssetList W WeakObjects = MatchingAssetList W WeakObjects' ∧
  SelectRelatedAssetsAction W WeakObjects = SelectRelatedAssetsAction W WeakObjects'.
Proof.
  intros Hsame.
  assert (MatchingAssetList W WeakObjects = MatchingAssetList W WeakObjects') as E.
  { unfold MatchingAssetList, FindAssetsBySharedURL, MatchingAssets.
    apply List.filter_ext. intros AssetData.
    destruct (GetTagValue AssetData MD_AssetSourceURL) as [TestURL|]; [|done].
    apply eq_true_iff_eq. rewrite !TSet_Contains_Collect.
    split; intros (WeakPtr & URL & Hin & ?); exists WeakPtr, URL;
      (split; [by apply Hsame|done]). }
  split; [done|]. unfold SelectRelatedAssetsAction. by rewrite E.
Qed.

Lemma SelectRelatedAssetsAction_selection_as_set_witness :
  SelectRelatedAssetsAction World_licenses [1; 2]%positive
  = SelectRelatedAssetsAction World_licenses [2; 1; 2]%positive.
Proof.
  apply (SelectRelatedAssetsAction_selection_as_set World_licenses
           [1; 2]%positive [2; 1; 2]%positive).
  intros WeakPtr. rewrite !elem_of_cons. tauto.
Defined.

(** X10: the content browser is synced only to a list that is not empty, and
    the list keeps the assets in the order of the registry's answer; no call
    is made exactly when no asset of the registry has a tag equal, under
    [operator==], to the URL, not empty, of a selected license. *)
Theorem SelectRelatedAssetsAction_call W WeakObjects :
  (∀ Matching, SelectRelatedAssetsAction W WeakObjects = Some Matching →
     Matching ≠ [] ∧ Matching `sublist_of` AssetRegistry W) ∧
  (SelectRelatedAssetsAction W WeakObjects = None ↔
   ∀ AssetData TestURL WeakPtr URL,
     AssetData ∈ AssetRegistry W →
     GetTagValue AssetData MD_AssetSourceURL = Some TestURL →
     WeakPtr ∈ WeakObjects → SelectedLicenseURL W WeakPtr = Some URL → URL ≠ "" →
     FString_eq URL TestURL = false).
Proof.
  unfold SelectRelatedAssetsAction. split.
  - intros Matching.
    destruct (MatchingAssetList W WeakObjects) as [|A As] eqn:EM; [done|].
    rewrite (proj2 (Z.gtb_gt _ 0)) by (cbn [length]; lia).
    intros [= <-]. split; [done|]. rewrite <- EM.
    unfold MatchingAssetList, FindAssetsBySharedURL, MatchingAssets, GetAssetsByTags.
    etransitivity; apply filter_sublist.
  - destruct (MatchingAssetList W WeakObjects) as [|A As] eqn:EM.
    + split; [|done]. intros _ AssetData TestURL WeakPtr URL Hin HT HW HU Hne.
      destruct (FString_eq URL TestURL) eqn:E; [|done].
      assert (AssetData ∈ MatchingAssetList W WeakObjects) as HM.
      { apply FindAssetsBySharedURL_elem. split; [done|]. exists TestURL.
        split; [done|]. apply TSet_Contains_Collect. eauto 10. }
      rewrite EM in HM. by apply elem_of_nil in HM.
    + rewrite (proj2 (Z.gtb_gt _ 0)) by (cbn [length]; lia).
      split; [done|]. intros Hnone.
      assert (A ∈ MatchingAssetList W WeakObjects) as HM by (rewrite EM; by left).
      apply FindAssetsBySharedURL_elem in HM as (Hin & TestURL & HT & HC).
      apply TSet_Contains_Collect in HC as (WeakPtr & URL & HW & HU & Hne & E).
      by rewrite (Hnone _ _ _ _ Hin HT HW HU Hne) in E.
Qed.

Lemma SelectRelatedAssetsAction_call_witness :
  [ {| ObjectPath := "/Game/Rock";
       TagsAndValues := {[ MD_AssetSourceURL := "HTTP://X" ]} |} ] ≠ [] ∧
  [ {| ObjectPath := "/Game/Rock";
       TagsAndValues := {[ MD_AssetSourceURL := "HTTP://X" ]} |} ]
  `sublist_of` AssetRegistry World_licenses.
Proof.
  apply (SelectRelatedAssetsAction_call World_licenses [1; 2; 3; 4]%positive).
  by vm_compute.
Defined.

(** *** The launches *)

Lemma TSet_Add_length Set_ Element :
  (length (TSet_Add Set_ Element) ≤ S (length Set_))%nat.
Proof.
  induction Set_ as [|X Rest IH]; cbn [TSet_Add]; [done|].
  destruct (FString_eq X Element); cbn [length]; lia.
Qed.

(** X11: "Open Asset Source URL" launches at most one URL per selected
    license that has one, and launches nothing exactly when no selected
    object is a license with a URL that is not empty. *)
Theorem ViewAssetSourceAction_launches W WeakObjects :
  (length (ViewAssetSourceAction W WeakObjects)
   ≤ length (List.filter (HasLicenseURL W) WeakObjects))%nat ∧
  (ViewAssetSourceAction W WeakObjects = [] ↔
   ∀ WeakPtr, WeakPtr ∈ WeakObjects → HasLicenseURL W WeakPtr = false).
Proof.
  unfold ViewAssetSourceAction. split.
  - induction WeakObjects as [|WeakPtr WeakObjects IH] using rev_ind; [done|].
    rewrite CollectAssetSourceURLs_snoc, filter_length_snoc.
    assert (HasLicenseURL W WeakPtr =
            match Cast_UJamAssetLicense W WeakPtr with
            | Some LicenseAsset => negb (IsEmpty (AssetSourceURL LicenseAsset))
            | None => false
            end) as ->
      by (unfold HasLicenseURL, SelectedLicenseURL;
          by destruct (Cast_UJamAssetLicense W WeakPtr)).
    unfold CollectAssetSourceURLs_step.
    destruct (Cast_UJamAssetLicense W WeakPtr) as [[URL]|];
      cbn [AssetSourceURL]; [|lia].
    destruct (IsEmpty URL); cbn [negb]; [lia|].
    pose proof (TSet_Add_length (CollectAssetSourceURLs W WeakObjects) URL). lia.
  - destruct (CollectAssetSourceURLs_spec W WeakObjects) as (_ & Hfrom & Hto). split.
    + intros E WeakPtr Hin. unfold HasLicenseURL.
      destruct (SelectedLicenseURL W WeakPtr) as [URL|] eqn:EU; [|done].
      destruct (IsEmpty URL) eqn:EE; [done|]. apply IsEmpty_false in EE.
      destruct (Hto _ _ Hin EU EE) as (X & HX & _). rewrite E in HX.
      by apply elem_of_nil in HX.
    + intros Hnone.
      destruct (CollectAssetSourceURLs W WeakObjects) as [|X Xs]; [done|].
      destruct (Hfrom X ltac:(by left)) as (Hne & WeakPtr & Hin & HU).
      specialize (Hnone _ Hin). unfold HasLicenseURL in Hnone. rewrite HU in Hnone.
      apply IsEmpty_false in Hne. by rewrite Hne in Hnone.
Qed.

(** ** The asset manager settings *)

Lemma CheckOutOrMakeWritable_success Helpers :
  (CheckOutOrMakeWritable Helpers).1.1 = FileIsWritable Helpers.
Proof.
  unfold CheckOutOrMakeWritable, FileIsWritable.
  by destruct (IsCheckedOut Helpers), (CheckOutOrAddFile Helpers), (MakeWritable Helpers).
Qed.

Lemma ManipulateAssetManagerSettings_settings Helpers InnerBody Settings :
  (ManipulateAssetManagerSettings Helpers InnerBody Settings).1 =
  if FileIsWritable Helpers then InnerBody Settings else Settings.
Proof.
  unfold ManipulateAssetManagerSettings.
  rewrite <- CheckOutOrMakeWritable_success.
  by destruct (CheckOutOrMakeWritable Helpers) as [[[] Op] Calls].
Qed.

(** X12: [ManipulateAssetManagerSettings] applies its body exactly when the
    settings' file was checked out already, could be checked out, or could
    be made writable; otherwise the settings are left as they are and the
    notification is the one of the failure.  The file is made writable only
    after a check-out that failed, which is also when the error is logged.
    In every case one notification is added, as the last step. *)
Theorem ManipulateAssetManagerSettings_outcome Helpers InnerBody Settings :
  let Settings' := (ManipulateAssetManagerSettings Helpers InnerBody Settings).1 in
  let Events := (ManipulateAssetManagerSettings Helpers InnerBody Settings).2 in
  Settings' = (if FileIsWritable Helpers then InnerBody Settings else Settings) ∧
  (Settings_Modify ∈ Events ↔ FileIsWritable Helpers = true) ∧
  (AddNotification FailedToTouchAssetManagerIni ∈ Events ↔
   FileIsWritable Helpers = false) ∧
  (Call_MakeWritable ∈ Events ↔
   IsCheckedOut Helpers = false ∧ CheckOutOrAddFile Helpers = false) ∧
  (Log_Error ∈ Events ↔
   IsCheckedOut Helpers = false ∧ CheckOutOrAddFile Helpers = false) ∧
  ∃ Before Op, Events = (Before ++ [AddNotification Op])%list ∧
               ∀ Op', AddNotification Op' ∉ Before.
Proof.
  cbn zeta. split; [apply ManipulateAssetManagerSettings_settings|].
  split; [|split; [|split; [|split]]].
  1-4: unfold ManipulateAssetManagerSettings, CheckOutOrMakeWritable, FileIsWritable;
       destruct (IsCheckedOut Helpers), (CheckOutOrAddFile Helpers),
                (MakeWritable Helpers);
       cbn [negb orb fst snd app]; in_events.
  unfold ManipulateAssetManagerSettings.
  assert (∀ Op', AddNotification Op' ∉ (CheckOutOrMakeWritable Helpers).2) as HC.
  { intros Op'. unfold CheckOutOrMakeWritable.
    destruct (IsCheckedOut Helpers), (CheckOutOrAddFile Helpers),
             (MakeWritable Helpers); cbn [negb snd]; in_events. }
  destruct (CheckOutOrMakeWritable Helpers) as [[[] Op] Calls]; cbn [snd] in *.
  - exists (Calls ++ [Settings_Modify; Settings_PostEditChange;
                      Settings_TryUpdateDefaultConfigFile;
                      AssetManager_ReinitializeFromConfig])%list, Op.
    split; [by rewrite <- app_assoc|].
    intros Op' [?|?]%elem_of_app; [by eapply HC|]. revert H. in_events.
  - by exists Calls, Op.
Qed.

Lemma TSet_Contains_Add Set_ Element : TSet_Contains (TSet_Add Set_ Element) Element = true.
Proof.
  apply TSet_Contains_true. exists Element.
  split; [apply TSet_Add_new|apply FString_eq_refl].
Qed.

Lemma TSet_Contains_Add_mono Set_ Element X :
  TSet_Contains Set_ X = true → TSet_Contains (TSet_Add Set_ Element) X = true.
Proof.
  rewrite !TSet_Contains_true. intros (Y & HY & EY).
  destruct (TSet_Add_covers _ Element _ HY) as (Z & HZ & EZ).
  exists Z. split; [done|]. by eapply FString_eq_trans.
Qed.

Lemma TSet_Add_present_length Set_ Element :
  TSet_Contains Set_ Element = true → length (TSet_Add Set_ Element) = length Set_.
Proof.
  unfold TSet_Contains.
  induction Set_ as [|X Rest IH]; cbn [existsb TSet_Add]; [done|].
  destruct (FString_eq X Element); cbn [orb length]; [done|].
  intros H. by rewrite IH.
Qed.

Lemma OnAssetManagerCreated_tag Rules_IsDefault Settings :
  MetaDataNotSavedInAssetRegistry ∈ OnAssetManagerCreated Rules_IsDefault Settings ↔
  TSet_Contains (MetaDataTagsForAssetRegistry Settings) MD_AssetSourceURL = false.
Proof.
  unfold OnAssetManagerCreated.
  destruct Rules_IsDefault,
    (TSet_Contains (MetaDataTagsForAssetRegistry Settings) MD_AssetSourceURL);
    cbn [negb app]; in_events.
Qed.

(** X13: the start-up check reports the missing tag exactly when the
    settings' set of tags does not hold [MD_AssetSourceURL].  The action it
    offers, when the settings' file is writable, adds the tag, so that the
    check does not report it again; the tags that were there stay, the
    primary asset types are untouched, and a tag that is there already is
    not added twice.  When the file is not writable the settings stay as
    they are. *)
Theorem AddAssetLicenseToAssetRegistryRule_fixes Helpers Settings Rules_IsDefault :
  let Settings' := (AddAssetLicenseToAssetRegistryRule Helpers Settings).1 in
  (MetaDataNotSavedInAssetRegistry ∈ OnAssetManagerCreated Rules_IsDefault Settings ↔
   TSet_Contains (MetaDataTagsForAssetRegistry Settings) MD_AssetSourceURL = false) ∧
  (FileIsWritable Helpers = true →
   MetaDataNotSavedInAssetRegistry ∉ OnAssetManagerCreated Rules_IsDefault Settings') ∧
  (FileIsWritable Helpers = false → Settings' = Settings) ∧
  PrimaryAssetTypesToScan Settings' = PrimaryAssetTypesToScan Settings ∧
  (∀ Tag, TSet_Contains (MetaDataTagsForAssetRegistry Settings) Tag = true →
          TSet_Contains (MetaDataTagsForAssetRegistry Settings') Tag = true) ∧
  (TSet_Contains (MetaDataTagsForAssetRegistry Settings) MD_AssetSourceURL = true →
   length (MetaDataTagsForAssetRegistry Settings')
   = length (MetaDataTagsForAssetRegistry Settings)).
Proof.
  cbn zeta. unfold AddAssetLicenseToAssetRegistryRule.
  rewrite ManipulateAssetManagerSettings_settings.
  split; [apply OnAssetManagerCreated_tag|].
  destruct (FileIsWritable Helpers); cbn [PrimaryAssetTypesToScan
                                          MetaDataTagsForAssetRegistry].
  - split; [|split; [done|split; [done|split]]].
    + intros _. rewrite OnAssetManagerCreated_tag.
      cbn [MetaDataTagsForAssetRegistry]. by rewrite TSet_Contains_Add.
    + intros Tag. apply TSet_Contains_Add_mono.
    + apply TSet_Add_present_length.
  - split; [done|]. repeat split; done.
Qed.

Lemma AddAssetLicenseToAssetRegistryRule_fixes_witness :
  MetaDataNotSavedInAssetRegistry ∈ OnAssetManagerCreated false Settings_fresh ∧
  MetaDataNotSavedInAssetRegistry
  ∉ OnAssetManagerCreated false
      (AddAssetLicenseToAssetRegistryRule Helpers_writable Settings_fresh).1.
Proof.
  pose proof (AddAssetLicenseToAssetRegistryRule_fixes Helpers_writable
                Settings_fresh false) as (H1 & H2 & _).
  split; [apply H1; by vm_compute|apply H2; by vm_compute].
Defined.

(** X14: the two actions offered at start-up do not get in each other's way:
    done in either order they leave the same settings; the action for the
    license type leaves the report of the missing tag as it was (whatever
    the asset manager answers for the rules before and after), and adds,
    when the file is writable, its one entry after the entries that were
    there. *)
Theorem settings_actions_commute Helpers1 Helpers2 Settings
    Rules_IsDefault Rules_IsDefault' :
  (AddJamAssetLicenseRule Helpers1
     (AddAssetLicenseToAssetRegistryRule Helpers2 Settings).1).1
  = (AddAssetLicenseToAssetRegistryRule Helpers2
       (AddJamAssetLicenseRule Helpers1 Settings).1).1 ∧
  (MetaDataNotSavedInAssetRegistry
   ∈ OnAssetManagerCreated Rules_IsDefault' (AddJamAssetLicenseRule Helpers1 Settings).1 ↔
   MetaDataNotSavedInAssetRegistry ∈ OnAssetManagerCreated Rules_IsDefault Settings) ∧
  PrimaryAssetTypesToScan (AddJamAssetLicenseRule Helpers1 Settings).1
  = (PrimaryAssetTypesToScan Settings
     ++ if FileIsWritable Helpers1 then [NewTypeInfo] else [])%list.
Proof.
  rewrite !OnAssetManagerCreated_tag.
  unfold AddJamAssetLicenseRule, AddAssetLicenseToAssetRegistryRule.
  rewrite !ManipulateAssetManagerSettings_settings.
  destruct (FileIsWritable Helpers1), (FileIsWritable Helpers2);
    cbn [PrimaryAssetTypesToScan MetaDataTagsForAssetRegistry];
    rewrite ?app_nil_r; repeat split; by destruct Settings.
Qed.

(** *** The numbers of the submenu *)

Lemma TotalCount_app Entries1 Entries2 :
  TotalCount (Entries1 ++ Entries2)%list = TotalCount Entries1 + TotalCount Entries2.
Proof.
  unfold TotalCount. induction Entries1 as [|E Es IH]; cbn [app foldr]; lia.
Qed.

Lemma TotalCount_URLs URLUsageMap (URLs : list string) :
  TotalCount ((fun URL => OpenSingleLicenseURL URL (TMap_At URLUsageMap URL)) <$> URLs)
  = SumOfCounts ((fun URL => (URL, TMap_At URLUsageMap URL)) <$> URLs).
Proof.
  unfold TotalCount, SumOfCounts.
  induction URLs as [|URL URLs IH]; cbn [fmap list_fmap foldr EntryCount snd]; [done|].
  cbn [fmap] in IH. by rewrite IH.
Qed.

Lemma SumOfCounts_Permutation (Map1 Map2 : TMap_FString_int32) :
  Map1 ≡ₚ Map2 → SumOfCounts Map1 = SumOfCounts Map2.
Proof.
  unfold SumOfCounts.
  induction 1 as [|x l1 l2 _ IH|x y l|l1 l2 l3 _ IH1 _ IH2]; cbn [foldr]; lia.
Qed.

Lemma packaged_stored_or_counted W Objs :
  (length (List.filter (fun Obj => bool_decide (is_Some (StoredURL W Obj))) Objs)
   + length (List.filter (CountedWithNoURL W) Objs)
   = length (List.filter (HasPackage W) Objs))%nat.
Proof.
  induction Objs as [|Obj Objs IH]; [done|].
  cbn [List.filter]. unfold HasPackage at 1, CountedWithNoURL at 1.
  pose proof (HasPackage_view W Obj) as HV. rewrite StoredURL_view.
  destruct (ViewOf W Obj) as [| |V].
  - rewrite bool_decide_false by (by intros [? ?]).
    rewrite bool_decide_false by (intros ?%HV; done). done.
  - rewrite bool_decide_false by (by intros [? ?]).
    rewrite bool_decide_true by (by apply HV). cbn [length]. lia.
  - rewrite (bool_decide_true (is_Some (GetOutermost W Obj))) by (by apply HV).
    destruct (IsEmpty V).
    + rewrite bool_decide_false by (by intros [? ?]). cbn [length]. lia.
    + rewrite bool_decide_true by eauto. cbn [length]. lia.
Qed.

(** X15: the numbers shown by the entries of the submenu add up to the
    number of selected assets that have a package (an asset without package
    is passed over), every entry shows at least 1, and without a context the
    submenu has no entry. *)
Theorem CreateLicenseListSubmenu_counts W SelectedObjects :
  Z.of_nat (length SelectedObjects) ≤ INT32_MAX →
  let Entries := CreateLicenseListSubmenu W (Some SelectedObjects) in
  TotalCount Entries = Z.of_nat (length (List.filter (HasPackage W) SelectedObjects)) ∧
  (∀ Entry, Entry ∈ Entries → 1 ≤ EntryCount Entry) ∧
  CreateLicenseListSubmenu W None = [].
Proof.
  intros Hlen. cbn zeta.
  destruct (Summarize_invariant W SelectedObjects Hlen)
    as (Hn & Hfind & Hdist & _ & Hsum).
  unfold CreateLicenseListSubmenu at 1 2. fold (Summarize W SelectedObjects).
  destruct (Summarize W SelectedObjects) as [Map Num]. cbn [fst snd] in *.
  destruct (SortURLsByUsage_sorted Map Hdist) as [HP _].
  split; [|split; [|done]].
  - rewrite TotalCount_app, TotalCount_URLs.
    rewrite (SumOfCounts_Permutation _ _
               (fmap_Permutation (fun URL => (URL, TMap_At Map URL)) _ _ HP)).
    rewrite TMap_entries by done. rewrite Hsum.
    rewrite <- (packaged_stored_or_counted W SelectedObjects), Nat2Z.inj_add, <- Hn.
    f_equal. destruct (Num >? 0) eqn:EN; cbn; lia.
  - intros Entry [HE|HE]%elem_of_app.
    + apply list_elem_of_fmap in HE as (URL & -> & HU). cbn [EntryCount].
      rewrite HP in HU. unfold GenerateKeyArray in HU.
      apply list_elem_of_fmap in HU as ([K C] & -> & HKC). cbn [fst].
      unfold TMap_At. rewrite (TMap_Find_entry Map K C Hdist HKC). cbn.
      pose proof (TMap_Find_entry Map K C Hdist HKC) as HF. rewrite Hfind in HF.
      destruct (UsageCount W K SelectedObjects) as [|c]; [done|].
      injection HF as <-. lia.
    + destruct (Num >? 0) eqn:EN; [|by apply elem_of_nil in HE].
      apply list_elem_of_singleton in HE as ->. cbn [EntryCount]. lia.
Qed.

Lemma CreateLicenseListSubmenu_counts_witness :
  TotalCount (CreateLicenseListSubmenu World_nometa (Some [1; 2; 5]%positive)) = 2.
Proof.
  pose proof (CreateLicenseListSubmenu_counts World_nometa [1; 2; 5]%positive) as H.
  apply H. by vm_compute.
Defined.
